(** * Cayenne LPP decoder: shallow embedding of [cayene::Decoder]

    The development follows [decoder.cpp]: the integer helpers
    ([bytes_to_uint16], [bytes_to_int16], [bytes_to_uint24],
    [bytes_to_int24]), the per-type value decoders, the registry
    ([data_types_], [add_data_type]) and the scan loop of [decode].

    Conventions of the embedding:
    - [uint8_t] is [Byte.byte]; its numeric value is [u8 b : Z];
    - wider C++ integers are [Z] with every conversion written out as a
      wrap-around ([to_uint16], [to_int16], [to_uint32], [to_int32]);
    - [double] is Rocq's primitive binary64 [float];
    - a C++ exception ([std::out_of_range] of [span::at], a throwing
      [decoder_function]) is [None] in the [option] monad, and so is a
      step that has no defined result (a span that is not a range of the
      buffer);
    - [std::expected<Json, Error>] is [expected Json Error];
    - an iterator into the payload is its offset from [begin()];
    - a width is a [std::size_t], cast to [std::ptrdiff_t] where [decode]
      does ([to_ptrdiff]); a buffer has at most [PTRDIFF_MAX] bytes. *)

From Stdlib Require Import ZArith Lia Strings.Byte String.
From Stdlib Require Import Floats.PrimFloat Numbers.Cyclic.Int63.Uint63.
From stdpp Require Import base option list gmap strings pretty.
From Equations Require Import Equations.

Local Open Scope Z_scope.

(** ** Bytes as map keys *)

Lemma byte_to_N_inj (a b : byte) : Byte.to_N a = Byte.to_N b -> a = b.
Proof.
  intros H. apply (f_equal Byte.of_N) in H.
  rewrite !Byte.of_to_N in H. congruence.
Qed.

#[global] Instance byte_eq_dec : EqDecision byte.
Proof.
  intros a b. destruct (decide (Byte.to_N a = Byte.to_N b)) as [H|H].
  - left. apply byte_to_N_inj, H.
  - right. congruence.
Defined.

Definition byte_of_N_total (n : N) : byte :=
  match Byte.of_N n with Some b => b | None => x00 end.

Lemma byte_of_to_N_total (b : byte) : byte_of_N_total (Byte.to_N b) = b.
Proof. unfold byte_of_N_total. rewrite Byte.of_to_N. reflexivity. Qed.

#[global] Instance byte_countable : Countable byte :=
  inj_countable' Byte.to_N byte_of_N_total byte_of_to_N_total.

(** Numeric value of a [uint8_t]. *)
Definition u8 (b : byte) : Z := Z.of_N (Byte.to_N b).

(** ** Json values produced by the decoder

    Only the [nlohmann::json] alternatives the decoder builds:
    unsigned numbers (from [uint8_t] and [uint16_t]), floating-point
    numbers (from [double]) and objects. *)

#[warnings="-register-all"]
Inductive Json : Type :=
| JNull
| JUnsigned (n : Z)
| JFloat (d : float)
| JObject (m : gmap string Json).

(** ** Errors and results *)

(** [enum class Error]: [None] of [error.hpp] and the three enumerators
    [decode] returns (with the spelling of the source). *)
Inductive Error : Type :=
| ErrNone
| PayloadEmpty
| UnkwownDataType
| BadPayloadFormat.

Inductive expected (T E : Type) : Type :=
| Value (v : T)
| Unexpected (e : E).
Arguments Value {T E} v.
Arguments Unexpected {T E} e.

(** ** Integer conversions *)

Definition to_uint16 (z : Z) : Z := z mod 2 ^ 16.
Definition to_int16 (z : Z) : Z := (z + 2 ^ 15) mod 2 ^ 16 - 2 ^ 15.
Definition to_uint32 (z : Z) : Z := z mod 2 ^ 32.
Definition to_int32 (z : Z) : Z := (z + 2 ^ 31) mod 2 ^ 32 - 2 ^ 31.

(** Conversion of a (small) integer to [double]; exact below 2^53. *)
Definition double_of_int (z : Z) : float :=
  if z <? 0 then PrimFloat.opp (PrimFloat.of_uint63 (Uint63.of_Z (- z)))
  else PrimFloat.of_uint63 (Uint63.of_Z z).

(** ** Spans *)

(** [span::at(i)]: bounds-checked, throws when out of range. *)
Definition at_ (data_span : list byte) (i : nat) : option byte :=
  data_span !! i.

(** [span::subspan(offset, count)]; outside its precondition
    [offset + count <= size()] the call has no defined result. *)
Definition subspan (data_span : list byte) (offset count : nat)
  : option (list byte) :=
  if (offset + count <=? length data_span)%nat
  then Some (take count (drop offset data_span))
  else None.

(** ** Byte-to-integer helpers *)

Definition bytes_to_uint16 (data_span : list byte) : option Z :=
  b0 ← at_ data_span 0;
  b1 ← at_ data_span 1;
  Some (to_uint16 (Z.lor (Z.shiftl (u8 b0) 8) (u8 b1))).

Definition bytes_to_int16 (data_span : list byte) : option Z :=
  unsigned_value ← bytes_to_uint16 data_span;
  if 0x7FFF <? unsigned_value
  then Some (to_int16 (unsigned_value - 0x10000))
  else Some (to_int16 unsigned_value).

Definition bytes_to_uint24 (data_span : list byte) : option Z :=
  b0 ← at_ data_span 0;
  b1 ← at_ data_span 1;
  b2 ← at_ data_span 2;
  Some (Z.land
          (to_uint32
             (Z.lor (Z.lor (Z.shiftl (u8 b0) 16) (Z.shiftl (u8 b1) 8)) (u8 b2)))
          0x00FFFFFF).

(** [unsigned_value - 0x1000000] is computed in [uint32_t] and wraps. *)
Definition bytes_to_int24 (data_span : list byte) : option Z :=
  unsigned_value ← bytes_to_uint24 data_span;
  if 0x7FFFFF <? unsigned_value
  then Some (to_int32 (to_uint32 (unsigned_value - 0x1000000)))
  else Some (to_int32 unsigned_value).

(** ** Per-type value decoders *)

Definition decode_digital_input (data_span : list byte) : option Z :=
  b ← at_ data_span 0; Some (u8 b).

Definition decode_digital_output (data_span : list byte) : option Z :=
  b ← at_ data_span 0; Some (u8 b).

Definition decode_analog_input (data_span : list byte) : option float :=
  raw_value ← bytes_to_int16 data_span;
  Some (double_of_int raw_value / 100)%float.

Definition decode_analog_output (data_span : list byte) : option float :=
  raw_value ← bytes_to_int16 data_span;
  Some (double_of_int raw_value / 100)%float.

Definition decode_luminosity (data_span : list byte) : option Z :=
  bytes_to_uint16 data_span.

Definition decode_presence (data_span : list byte) : option Z :=
  b ← at_ data_span 0; Some (u8 b).

Definition decode_temperature (data_span : list byte) : option float :=
  raw_value ← bytes_to_int16 data_span;
  Some (double_of_int raw_value / 10)%float.

Definition decode_humidity (data_span : list byte) : option float :=
  raw_value ← bytes_to_uint16 data_span;
  Some (double_of_int raw_value / 10)%float.

Definition decode_accelerometer (data_span : list byte) : option Json :=
  sx ← subspan data_span 0 2; x_raw ← bytes_to_int16 sx;
  sy ← subspan data_span 2 2; y_raw ← bytes_to_int16 sy;
  sz ← subspan data_span 4 2; z_raw ← bytes_to_int16 sz;
  let x := (double_of_int x_raw / 1000)%float in
  let y := (double_of_int y_raw / 1000)%float in
  let z := (double_of_int z_raw / 1000)%float in
  Some (JObject (<["z"%string := JFloat z]>
                  (<["y"%string := JFloat y]>
                    (<["x"%string := JFloat x]> ∅)))).

Definition decode_barometer (data_span : list byte) : option float :=
  raw_value ← bytes_to_uint16 data_span;
  Some (double_of_int raw_value / 10)%float.

Definition decode_gyrometer (data_span : list byte) : option float :=
  raw_value ← bytes_to_int16 data_span;
  Some (double_of_int raw_value / 100)%float.

Definition decode_gps (data_span : list byte) : option Json :=
  slat ← subspan data_span 0 3; lat_raw ← bytes_to_int24 slat;
  slon ← subspan data_span 3 3; lon_raw ← bytes_to_int24 slon;
  salt ← subspan data_span 6 3; alt_raw ← bytes_to_int24 salt;
  let latitude := (double_of_int lat_raw / 10000)%float in
  let longitude := (double_of_int lon_raw / 10000)%float in
  let altitude := (double_of_int alt_raw / 100)%float in
  Some (JObject (<["altitude"%string := JFloat altitude]>
                  (<["longitude"%string := JFloat longitude]>
                    (<["latitude"%string := JFloat latitude]> ∅)))).

(** ** The type registry *)

(** [DataType]: the descriptor stored in [data_types_], with the fields
    [decode] reads.  [size] is the fixed width of the value in bytes, a
    [std::size_t] (a natural number below [2^64]); [decode] casts it to
    [std::ptrdiff_t] for its iterator arithmetic, see [to_ptrdiff].
    [decoder_function] may throw. *)
Record DataType : Type := mkDataType {
  type_id : byte;
  name : string;
  size : nat;
  standard : bool;
  decoder_function : list byte -> option Json
}.

Record Decoder : Type := mkDecoder {
  data_types_ : gmap byte DataType
}.

(** [map::emplace]: inserts only when the key is absent. *)
Definition emplace (k : byte) (v : DataType) (m : gmap byte DataType)
  : gmap byte DataType :=
  match m !! k with
  | Some _ => m
  | None => <[k := v]> m
  end.

(** A built-in entry: [standard] is set, so [decode] dispatches it through
    the [switch] and never calls its [decoder_function], left empty here
    (calling an empty [std::function] throws). *)
Definition standard_data_type (id : byte) (nm : string) (sz : nat) : DataType :=
  mkDataType id nm sz true (fun _ => None).

(** Modelled from the spec: [definitions::get_v1_standard_data_types] of
    [cayene_v1_defintions.hpp] is not part of the sources.  The twelve
    built-in types are digital input/output, analog input/output,
    luminosity, presence, temperature, humidity, accelerometer, barometer,
    gyrometer and GPS, of widths 1, 1, 2, 2, 2, 1, 2, 2, 6, 2, 2, 9.  The
    identifiers are the [case] labels of [decode]; the spelling of the
    names is the one the unit tests and the conversion table use. *)
Definition get_v1_standard_data_types : list DataType :=
  [ standard_data_type x00 "Digital Input" 1;
    standard_data_type x01 "Digital Output" 1;
    standard_data_type x02 "Analog Input" 2;
    standard_data_type x03 "Analog Output" 2;
    standard_data_type x65 "Luminosity" 2;
    standard_data_type x66 "Presence" 1;
    standard_data_type x67 "Temperature" 2;
    standard_data_type x68 "Humidity" 2;
    standard_data_type x71 "Accelerometer" 6;
    standard_data_type x73 "Barometer" 2;
    standard_data_type x86 "Gyrometer" 2;
    standard_data_type x88 "GPS" 9 ].

(** [Decoder::Decoder()] *)
Definition Decoder_ctor : Decoder :=
  mkDecoder
    (fold_left (fun m data_type => emplace (type_id data_type) data_type m)
               get_v1_standard_data_types ∅).

Section AddDataType.
(** The three-argument constructor [DataType(type_id, name, size)] is
    declared in the missing header; it is a parameter. *)
Variable DataType_ctor : byte -> string -> nat -> DataType.

(** [Decoder::add_data_type] *)
Definition add_data_type (d : Decoder) (id : byte) (nm : string) (sz : nat)
  : Decoder :=
  match data_types_ d !! id with
  | Some _ => d
  | None => mkDecoder (emplace id (DataType_ctor id nm sz) (data_types_ d))
  end.
End AddDataType.

(** ** The scan loop of [decode] *)

(** [std::to_string(channel)]: decimal rendering of the byte value. *)
Definition to_string (channel : byte) : string := pretty (Byte.to_N channel).

Definition json_key (data_type : DataType) (channel : byte) : string :=
  name data_type +:+ "_" +:+ to_string channel.

(** The [switch (type_id)] of [decode]: [None] is the [default] branch,
    [Some None] a decoder that threw, [Some (Some v)] the decoded value. *)
Definition switch_type_id (id : byte) (data_span : list byte)
  : option (option Json) :=
  match id with
  | x00 => Some (JUnsigned <$> decode_digital_input data_span)
  | x01 => Some (JUnsigned <$> decode_digital_output data_span)
  | x02 => Some (JFloat <$> decode_analog_input data_span)
  | x03 => Some (JFloat <$> decode_analog_output data_span)
  | x65 => Some (JUnsigned <$> decode_luminosity data_span)
  | x66 => Some (JUnsigned <$> decode_presence data_span)
  | x67 => Some (JFloat <$> decode_temperature data_span)
  | x68 => Some (JFloat <$> decode_humidity data_span)
  | x71 => Some (decode_accelerometer data_span)
  | x73 => Some (JFloat <$> decode_barometer data_span)
  | x86 => Some (JFloat <$> decode_gyrometer data_span)
  | x88 => Some (decode_gps data_span)
  | _ => None
  end.

(** [static_cast<std::ptrdiff_t>(n)] of a [std::size_t]: the value modulo
    [2^64] read as a signed 64-bit integer, so a width from [2^63] on
    becomes negative. *)
Definition PTRDIFF_MAX : Z := 2 ^ 63 - 1.

Definition to_ptrdiff (n : nat) : Z :=
  (Z.of_nat n + 2 ^ 63) mod 2 ^ 64 - 2 ^ 63.

(** [std::span<uint8_t>(first, count)]: the [count] bytes from offset
    [first].  The constructor requires them to be a range of the buffer;
    outside this precondition the span, and what a decoder does with it,
    has no defined result. *)
Definition make_span (encoded_payload : list byte) (first count : nat)
  : option (list byte) :=
  if (first + count <=? length encoded_payload)%nat
  then Some (take count (drop first encoded_payload))
  else None.

(** What one iteration of the [while] body does.  [Throw] stands for an
    exception and for a step without defined result. *)
Inductive LoopStep : Type :=
| Continue (current_index : nat) (decoded_json : gmap string Json)
| Return (r : expected Json Error)
| Throw.

(** The width test (line 76) adds the width cast to [std::ptrdiff_t], so
    a width from [2^63] on passes it whatever is left of the buffer.  The
    span is built where the source builds it: in the call of the
    registered [decoder_function] and under each [case] label, not under
    [default].  The cursor advances (lines 86 and 144) by the cast width
    as well.  It does so after a span of the uncast width was built and
    decoded: when that span was a range of the buffer, the width is at
    most the length of the buffer, which is at most [PTRDIFF_MAX], the
    cast leaves the width unchanged ([to_ptrdiff_small]) and the new
    offset is the sum of natural numbers written here
    ([loop_body_advance_cast]); when it was not, which is the only way
    for the cast to turn the step negative, the iteration is [Throw]. *)
Definition loop_body (d : Decoder) (encoded_payload : list byte)
    (current_index : nat) (decoded_json : gmap string Json) : LoopStep :=
  match encoded_payload !! current_index,
        encoded_payload !! S current_index with
  | Some channel, Some id =>
    let current_index := (current_index + 2)%nat in
    match data_types_ d !! id with
    | None => Return (Unexpected UnkwownDataType)
    | Some data_type =>
      if Z.of_nat (length encoded_payload)
         <? Z.of_nat current_index + to_ptrdiff (size data_type)
      then Return (Unexpected BadPayloadFormat)
      else
        let data_span :=
          make_span encoded_payload current_index (size data_type) in
        let key := json_key data_type channel in
        if negb (standard data_type) then
          match data_span ≫= decoder_function data_type with
          | Some v =>
            Continue (current_index + size data_type) (<[key := v]> decoded_json)
          | None => Throw
          end
        else
          match data_span, switch_type_id id (default [] data_span) with
          | _, None => Return (Unexpected UnkwownDataType)
          | Some _, Some (Some v) =>
            Continue (current_index + size data_type) (<[key := v]> decoded_json)
          | _, Some _ => Throw
          end
    end
  | _, _ => Throw
  end.

Lemma make_span_Some payload first count data_span :
  make_span payload first count = Some data_span ->
  (first + count <= length payload)%nat /\
  data_span = take count (drop first payload).
Proof.
  unfold make_span.
  destruct (Nat.leb_spec (first + count) (length payload)) as [Hle|];
    [|discriminate].
  intros H. injection H as <-. auto.
Qed.

Lemma loop_body_advance d payload ci json ci' json' :
  loop_body d payload ci json = Continue ci' json' ->
  (ci + 2 <= ci' <= length payload)%nat.
Proof.
  unfold loop_body. intros H.
  destruct (payload !! ci); [|discriminate].
  destruct (payload !! S ci); [|discriminate].
  destruct (data_types_ d !! _) as [dt|]; [|discriminate].
  destruct (_ <? _); [discriminate|].
  destruct (make_span payload (ci + 2) (size dt)) as [sp|] eqn:Hsp.
  - apply make_span_Some in Hsp. destruct Hsp as [Hle _].
    destruct (negb (standard dt)); simpl in H.
    + destruct (decoder_function dt _); inversion H; subst; lia.
    + destruct (switch_type_id _ _) as [[v|]|]; inversion H; subst; lia.
  - destruct (negb (standard dt)); simpl in H; [discriminate|].
    destruct (switch_type_id _ _) as [[v|]|]; discriminate.
Qed.

Definition inspect {A : Type} (a : A) : { b : A | a = b } := exist _ a eq_refl.

(** [while (current_index + 2 < encoded_payload.end()) { ... }] followed by
    the trailing-bytes test and the final [return]. *)
Equations? decode_loop (d : Decoder) (encoded_payload : list byte)
    (current_index : nat) (decoded_json : gmap string Json)
  : option (expected Json Error)
  by wf (length encoded_payload - current_index)%nat lt :=
  decode_loop d encoded_payload current_index decoded_json
    with inspect (current_index + 2 <? length encoded_payload)%nat := {
    | exist _ true Hguard
        with inspect (loop_body d encoded_payload current_index decoded_json) := {
        | exist _ (Continue current_index' decoded_json') Hbody :=
            decode_loop d encoded_payload current_index' decoded_json';
        | exist _ (Return r) _ := Some r;
        | exist _ Throw _ := None };
    | exist _ false _ :=
        if (current_index <? length encoded_payload)%nat
        then Some (Unexpected BadPayloadFormat)
        else Some (Value (JObject decoded_json)) }.
Proof.
  apply loop_body_advance in Hbody.
  apply Nat.ltb_lt in Hguard. lia.
Qed.

(** [Decoder::decode] *)
Definition decode (d : Decoder) (encoded_payload : list byte)
  : option (expected Json Error) :=
  if (length encoded_payload =? 0)%nat
  then Some (Unexpected PayloadEmpty)
  else decode_loop d encoded_payload 0 ∅.

(** ** Notions used to state the properties *)

(** The value decoder [decode] runs for a registry entry: the registered
    [decoder_function] for a non-standard entry, the [switch] otherwise
    (same three-way result as [switch_type_id]). *)
Definition decode_value (data_type : DataType) (id : byte)
    (data_span : list byte) : option (option Json) :=
  if negb (standard data_type)
  then Some (decoder_function data_type data_span)
  else switch_type_id id data_span.

(** The loop head is reached with cursor [current_index] and accumulated
    object [decoded_json]: initially, and after each completed iteration. *)
Inductive scan_reaches (d : Decoder) (encoded_payload : list byte)
  : nat -> gmap string Json -> Prop :=
| scan_begin : scan_reaches d encoded_payload 0 ∅
| scan_iter current_index decoded_json current_index' decoded_json' :
    scan_reaches d encoded_payload current_index decoded_json ->
    (current_index + 2 < length encoded_payload)%nat ->
    loop_body d encoded_payload current_index decoded_json
      = Continue current_index' decoded_json' ->
    scan_reaches d encoded_payload current_index' decoded_json'.

(** A record of the wire format: channel byte, type byte, value bytes. *)
Record TLV : Type := mkTLV {
  tlv_channel : byte;
  tlv_type : byte;
  tlv_value : list byte
}.

Definition tlv_bytes (r : TLV) : list byte :=
  tlv_channel r :: tlv_type r :: tlv_value r.

(** The type byte of [r] is registered and [r] carries exactly
    [byte_width] value bytes. *)
Definition registered_record (d : Decoder) (r : TLV) : Prop :=
  exists data_type,
    data_types_ d !! tlv_type r = Some data_type /\
    length (tlv_value r) = size data_type.

(** [encoded_payload] is exactly the concatenation of the records [recs],
    each of a registered type. *)
Definition partitions (d : Decoder) (encoded_payload : list byte)
    (recs : list TLV) : Prop :=
  encoded_payload = concat (map tlv_bytes recs) /\
  Forall (registered_record d) recs.

(** Registered width of the type of [r] (0 when unregistered). *)
Definition byte_width (d : Decoder) (r : TLV) : nat :=
  match data_types_ d !! tlv_type r with
  | Some data_type => size data_type
  | None => 0
  end.

(** What [decode] stores for record [r]: the key and the decoded value
    ([None] when the type is unregistered or its decoder yields no value). *)
Definition tlv_entry (d : Decoder) (r : TLV) : option (string * Json) :=
  data_type ← data_types_ d !! tlv_type r;
  match decode_value data_type (tlv_type r) (tlv_value r) with
  | Some (Some v) => Some (json_key data_type (tlv_channel r), v)
  | _ => None
  end.

(** The assignment [decoded_json[key] = value] made for record [r]. *)
Definition store (d : Decoder) (decoded_json : gmap string Json) (r : TLV)
  : gmap string Json :=
  match tlv_entry d r with
  | Some (key, v) => <[key := v]> decoded_json
  | None => decoded_json
  end.

(** Record [r] is stored under [key]. *)
Definition has_key (d : Decoder) (r : TLV) (key : string) : Prop :=
  exists v, tlv_entry d r = Some (key, v).

(** The record at index [i] of [recs] is the last one stored under [key],
    and it is stored with value [v]. *)
Definition last_stored (d : Decoder) (recs : list TLV) (key : string)
    (v : Json) (i : nat) : Prop :=
  exists r,
    recs !! i = Some r /\
    tlv_entry d r = Some (key, v) /\
    forall i' r', (i < i')%nat -> recs !! i' = Some r' -> ~ has_key d r' key.

(** A record [decode] can process: its type is registered with a positive
    width, it carries exactly that many value bytes, and the decoder of
    its type yields a value for them. *)
Definition decodable_record (d : Decoder) (r : TLV) : Prop :=
  exists data_type v,
    data_types_ d !! tlv_type r = Some data_type /\
    length (tlv_value r) = size data_type /\
    (0 < size data_type)%nat /\
    decode_value data_type (tlv_type r) (tlv_value r) = Some (Some v).

(** The data model of the registry: every width is positive and every
    entry decodes each slice of its width to a value (its decoder neither
    throws nor falls into the [default] branch of the [switch]). *)
Definition registry_total (d : Decoder) : Prop :=
  forall id data_type,
    data_types_ d !! id = Some data_type ->
    (0 < size data_type)%nat /\
    forall data_span,
      length data_span = size data_type ->
      exists v, decode_value data_type id data_span = Some (Some v).

(** Every registered width fits [std::ptrdiff_t], so that the cast of
    the width test leaves it unchanged. *)
Definition widths_fit (d : Decoder) : Prop :=
  forall id data_type,
    data_types_ d !! id = Some data_type ->
    Z.of_nat (size data_type) <= PTRDIFF_MAX.

(** Every registered entry decodes each slice of its width to a value. *)
Definition decoders_yield (d : Decoder) : Prop :=
  forall id data_type,
    data_types_ d !! id = Some data_type ->
    forall data_span,
      length data_span = size data_type ->
      exists v, decode_value data_type id data_span = Some (Some v).

(** The largest [std::size_t]. *)
Definition SIZE_MAX : nat := Z.to_nat (2 ^ 64 - 1).

(** The signed big-endian reading in the words of the specification, to
    compare [bytes_to_int16] and [bytes_to_int24] with. *)

(** Big-endian unsigned value of a byte sequence. *)
Definition be_unsigned (bs : list byte) : Z :=
  fold_left (fun acc b => acc * 256 + u8 b) bs 0.

(** Two's-complement reading of an [n]-bit unsigned value: values above the
    largest positive signed value lose [2^n]. *)
Definition twos_complement (n : Z) (u : Z) : Z :=
  if u <=? 2 ^ (n - 1) - 1 then u else u - 2 ^ n.

Definition be_signed16 (b0 b1 : byte) : Z :=
  twos_complement 16 (be_unsigned [b0; b1]).

Definition be_signed24 (b0 b1 b2 : byte) : Z :=
  twos_complement 24 (be_unsigned [b0; b1; b2]).

Section Registration.
Variable DataType_ctor : byte -> string -> nat -> DataType.

(** A sequence of [add_data_type] calls. *)
Definition add_data_types (d : Decoder) (calls : list (byte * string * nat))
  : Decoder :=
  fold_left (fun d c => add_data_type DataType_ctor d c.1.1 c.1.2 c.2) calls d.
End Registration.

(** ** Notions for the further properties *)

(** The result of [decode] on [p1 ++ p2] read off the one on [p2], once
    [p1] has decoded to the object [m1]: the entries of [p2] are assigned
    later, so they take precedence; an error or exception of [p2] stands. *)
Definition after_object (m1 : gmap string Json)
    (r : option (expected Json Error)) : option (expected Json Error) :=
  match r with
  | Some (Value (JObject m2)) => Some (Value (JObject (m2 ∪ m1)))
  | _ => r
  end.

(** * Properties *)

(** ** The loop *)

(** One unfolding of the [while] loop. *)
Lemma decode_loop_eq d payload ci json :
  decode_loop d payload ci json =
  if (ci + 2 <? length payload)%nat then
    match loop_body d payload ci json with
    | Continue ci' json' => decode_loop d payload ci' json'
    | Return r => Some r
    | Throw => None
    end
  else if (ci <? length payload)%nat
       then Some (Unexpected BadPayloadFormat)
       else Some (Value (JObject json)).
Proof.
  funelim (decode_loop d payload ci json);
    repeat match goal with
           | H : (_ <? _)%nat = _ |- _ => rewrite H
           | H : loop_body _ _ _ _ = _ |- _ => rewrite H
           end; reflexivity.
Qed.

(** Induction along the iterations of the loop. *)
Lemma decode_loop_cases d payload
    (P : nat -> gmap string Json -> option (expected Json Error) -> Prop) :
  (forall ci json,
      (length payload <= ci + 2)%nat ->
      P ci json (if (ci <? length payload)%nat
                 then Some (Unexpected BadPayloadFormat)
                 else Some (Value (JObject json)))) ->
  (forall ci json ci' json',
      (ci + 2 < length payload)%nat ->
      loop_body d payload ci json = Continue ci' json' ->
      P ci' json' (decode_loop d payload ci' json') ->
      P ci json (decode_loop d payload ci' json')) ->
  (forall ci json r,
      (ci + 2 < length payload)%nat ->
      loop_body d payload ci json = Return r ->
      P ci json (Some r)) ->
  (forall ci json,
      (ci + 2 < length payload)%nat ->
      loop_body d payload ci json = Throw ->
      P ci json None) ->
  forall ci json, P ci json (decode_loop d payload ci json).
Proof.
  intros Hstop Hcont Hret Hthrow ci json.
  funelim (decode_loop d payload ci json);
    match goal with
    | H : (?a <? ?b)%nat = true |- _ => pose proof (proj1 (Nat.ltb_lt a b) H)
    | H : (?a <? ?b)%nat = false |- _ => pose proof (proj1 (Nat.ltb_ge a b) H)
    end; eauto.
  eapply Hcont; eauto.
  match goal with IH : forall P, _ |- _ => apply IH; assumption end.
Qed.

Lemma decode_nonempty d payload :
  payload <> [] -> decode d payload = decode_loop d payload 0 ∅.
Proof.
  intros H. unfold decode. destruct payload; [congruence|reflexivity].
Qed.

Lemma scan_reaches_loop d payload ci json :
  scan_reaches d payload ci json ->
  decode_loop d payload 0 ∅ = decode_loop d payload ci json.
Proof.
  induction 1 as [|ci json ci' json' _ IH Hguard Hbody]; [reflexivity|].
  rewrite IH, decode_loop_eq.
  apply Nat.ltb_lt in Hguard. rewrite Hguard, Hbody. reflexivity.
Qed.

Lemma scan_reaches_decode d payload ci json :
  payload <> [] -> scan_reaches d payload ci json ->
  decode d payload = decode_loop d payload ci json.
Proof.
  intros Hne Hs. rewrite decode_nonempty by assumption.
  apply scan_reaches_loop, Hs.
Qed.

Lemma loop_stops d payload ci json :
  (length payload <= ci + 2)%nat ->
  decode_loop d payload ci json =
  if (ci <? length payload)%nat
  then Some (Unexpected BadPayloadFormat)
  else Some (Value (JObject json)).
Proof.
  intros H. rewrite decode_loop_eq.
  destruct (Nat.ltb_spec (ci + 2) (length payload)); [lia|reflexivity].
Qed.

(** ** Integer helpers *)

Lemma u8_range (b : byte) : 0 <= u8 b < 256.
Proof.
  unfold u8. pose proof (Byte.to_N_bounded b) as H. lia.
Qed.

(** Bits below a left shift are free. *)
Lemma land_shiftl_small (a b n : Z) :
  0 <= n -> 0 <= b < 2 ^ n -> Z.land (Z.shiftl a n) b = 0.
Proof.
  intros Hn Hb.
  apply Z.bits_inj'; intros i Hi. rewrite Z.land_spec, Z.bits_0.
  destruct (Z.lt_ge_cases i n) as [Hlt|Hge].
  - rewrite Z.shiftl_spec_low by assumption. reflexivity.
  - destruct (Z.eq_dec b 0) as [->|Hnz].
    + rewrite Z.bits_0. apply andb_false_r.
    + rewrite (Z.bits_above_log2 b i), andb_false_r; [reflexivity|lia|].
      apply Z.log2_lt_pow2; [lia|].
      apply Z.lt_le_trans with (2 ^ n); [lia|].
      apply Z.pow_le_mono_r; lia.
Qed.

(** OR-ing below a left shift is an addition. *)
Lemma lor_shiftl_add (a b n : Z) :
  0 <= n -> 0 <= b < 2 ^ n -> Z.lor (Z.shiftl a n) b = a * 2 ^ n + b.
Proof.
  intros Hn Hb.
  rewrite <- Z.lxor_lor, <- Z.add_nocarry_lxor, Z.shiftl_mul_pow2;
    auto using land_shiftl_small.
Qed.

Lemma bytes_to_uint16_be (b0 b1 : byte) :
  bytes_to_uint16 [b0; b1] = Some (be_unsigned [b0; b1]).
Proof.
  pose proof (u8_range b0). pose proof (u8_range b1).
  unfold bytes_to_uint16, be_unsigned, to_uint16. simpl.
  rewrite lor_shiftl_add by (change (2 ^ 8) with 256; lia).
  change (2 ^ 8) with 256. change (2 ^ 16) with 65536.
  rewrite Z.mod_small by lia. reflexivity.
Qed.

Lemma bytes_to_uint24_be (b0 b1 b2 : byte) :
  bytes_to_uint24 [b0; b1; b2] = Some (be_unsigned [b0; b1; b2]).
Proof.
  pose proof (u8_range b0). pose proof (u8_range b1). pose proof (u8_range b2).
  unfold bytes_to_uint24, be_unsigned, to_uint32. simpl.
  assert (Hpow : 2 ^ 8 = 256) by reflexivity.
  replace (Z.lor (Z.shiftl (u8 b0) 16) (Z.shiftl (u8 b1) 8))
    with (Z.shiftl (u8 b0 * 2 ^ 8 + u8 b1) 8).
  2:{ rewrite <- (lor_shiftl_add (u8 b0) (u8 b1) 8) by lia.
      rewrite Z.shiftl_lor, Z.shiftl_shiftl by lia. reflexivity. }
  rewrite lor_shiftl_add by lia.
  change (2 ^ 8) with 256. change (2 ^ 32) with 4294967296.
  rewrite Z.mod_small by lia.
  change 16777215 with (Z.ones 24). rewrite Z.land_ones by lia.
  change (2 ^ 24) with 16777216.
  rewrite Z.mod_small by lia. reflexivity.
Qed.

Lemma to_int16_small (z : Z) : - 2 ^ 15 <= z < 2 ^ 15 -> to_int16 z = z.
Proof.
  intros H. unfold to_int16.
  change (2 ^ 15) with 32768 in *. change (2 ^ 16) with 65536.
  rewrite Z.mod_small by lia. lia.
Qed.

Lemma to_int32_small (z : Z) : - 2 ^ 31 <= z < 2 ^ 31 -> to_int32 z = z.
Proof.
  intros H. unfold to_int32.
  change (2 ^ 31) with 2147483648 in *. change (2 ^ 32) with 4294967296.
  rewrite Z.mod_small by lia. lia.
Qed.

Lemma to_int32_to_uint32 (z : Z) : to_int32 (to_uint32 z) = to_int32 z.
Proof.
  unfold to_int32, to_uint32. rewrite Zplus_mod_idemp_l. reflexivity.
Qed.

Lemma be_unsigned_2 (b0 b1 : byte) : 0 <= be_unsigned [b0; b1] < 2 ^ 16.
Proof.
  pose proof (u8_range b0). pose proof (u8_range b1).
  unfold be_unsigned. simpl. change (2 ^ 16) with 65536. lia.
Qed.

Lemma be_unsigned_3 (b0 b1 b2 : byte) : 0 <= be_unsigned [b0; b1; b2] < 2 ^ 24.
Proof.
  pose proof (u8_range b0). pose proof (u8_range b1). pose proof (u8_range b2).
  unfold be_unsigned. simpl. change (2 ^ 24) with 16777216. lia.
Qed.

Lemma bytes_to_int16_signed (b0 b1 : byte) :
  bytes_to_int16 [b0; b1] = Some (be_signed16 b0 b1).
Proof.
  unfold bytes_to_int16, be_signed16, twos_complement.
  rewrite bytes_to_uint16_be. simpl mbind.
  pose proof (be_unsigned_2 b0 b1) as H. revert H.
  generalize (be_unsigned [b0; b1]). intros u H.
  change (2 ^ 16) with 65536 in *. change (2 ^ (16 - 1) - 1) with 32767.
  destruct (Z.ltb_spec 32767 u), (Z.leb_spec u 32767); try lia.
  all: rewrite to_int16_small; [reflexivity|].
  all: change (2 ^ 15) with 32768; lia.
Qed.

Lemma bytes_to_int24_signed (b0 b1 b2 : byte) :
  bytes_to_int24 [b0; b1; b2] = Some (be_signed24 b0 b1 b2).
Proof.
  unfold bytes_to_int24, be_signed24, twos_complement.
  rewrite bytes_to_uint24_be. simpl mbind.
  pose proof (be_unsigned_3 b0 b1 b2) as H. revert H.
  generalize (be_unsigned [b0; b1; b2]). intros u H.
  change (2 ^ 24) with 16777216 in *. change (2 ^ (24 - 1) - 1) with 8388607.
  destruct (Z.ltb_spec 8388607 u), (Z.leb_spec u 8388607); try lia.
  all: rewrite ?to_int32_to_uint32, to_int32_small; [reflexivity|].
  all: change (2 ^ 31) with 2147483648; lia.
Qed.

(** C5. Signed big-endian conversions.  For every 2-byte span
    [[b0; b1]] with big-endian unsigned value [u], [bytes_to_int16]
    returns [u] when [u <= 0x7FFF] and [u - 2^16] otherwise; for every
    3-byte span [[b0; b1; b2]] with big-endian unsigned value [u],
    [bytes_to_int24] returns [u] when [u <= 0x7FFFFF] and [u - 2^24]
    otherwise. *)
Theorem signed_big_endian_conversion (b0 b1 b2 : byte) :
  let u16 := u8 b0 * 2 ^ 8 + u8 b1 in
  let u24 := u8 b0 * 2 ^ 16 + u8 b1 * 2 ^ 8 + u8 b2 in
  bytes_to_int16 [b0; b1]
    = Some (if u16 <=? 0x7FFF then u16 else u16 - 2 ^ 16) /\
  bytes_to_int24 [b0; b1; b2]
    = Some (if u24 <=? 0x7FFFFF then u24 else u24 - 2 ^ 24).
Proof.
  intros u16 u24. split.
  - rewrite bytes_to_int16_signed. unfold be_signed16, twos_complement.
    replace (be_unsigned [b0; b1]) with u16; [reflexivity|].
    unfold u16, be_unsigned. simpl. change (2 ^ 8) with 256. lia.
  - rewrite bytes_to_int24_signed. unfold be_signed24, twos_complement.
    replace (be_unsigned [b0; b1; b2]) with u24; [reflexivity|].
    unfold u24, be_unsigned. simpl.
    change (2 ^ 16) with 65536. change (2 ^ 8) with 256. lia.
Qed.

(** ** Value decoders *)

Lemma decode_temperature_signed (b0 b1 : byte) :
  decode_temperature [b0; b1]
  = Some (double_of_int (be_signed16 b0 b1) / 10)%float.
Proof.
  unfold decode_temperature. rewrite bytes_to_int16_signed. reflexivity.
Qed.

(** C7. GPS values.  For every 9-byte slice, [decode_gps] returns an
    object with exactly the three fields [latitude], [longitude] and
    [altitude]: the big-endian signed 24-bit values of bytes 0-2, 3-5 and
    6-8, divided by 10000, 10000 and 100. *)
Theorem decode_gps_fields (b0 b1 b2 b3 b4 b5 b6 b7 b8 : byte) :
  decode_gps [b0; b1; b2; b3; b4; b5; b6; b7; b8]
  = Some (JObject (list_to_map
      [ ("latitude"%string,
          JFloat (double_of_int (be_signed24 b0 b1 b2) / 10000)%float);
        ("longitude"%string,
          JFloat (double_of_int (be_signed24 b3 b4 b5) / 10000)%float);
        ("altitude"%string,
          JFloat (double_of_int (be_signed24 b6 b7 b8) / 100)%float) ])).
Proof.
  unfold decode_gps, subspan. simpl.
  rewrite !bytes_to_int24_signed. reflexivity.
Qed.

(** ** Errors of the scan *)

Lemma to_ptrdiff_le (n : nat) : to_ptrdiff n <= Z.of_nat n.
Proof.
  unfold to_ptrdiff.
  pose proof (Z.mod_le (Z.of_nat n + 2 ^ 63) (2 ^ 64)) as H.
  change (2 ^ 63) with 9223372036854775808 in *.
  change (2 ^ 64) with 18446744073709551616 in *. lia.
Qed.

Lemma to_ptrdiff_small (n : nat) :
  Z.of_nat n <= PTRDIFF_MAX -> to_ptrdiff n = Z.of_nat n.
Proof.
  unfold to_ptrdiff, PTRDIFF_MAX. intros H.
  change (2 ^ 63) with 9223372036854775808 in *.
  change (2 ^ 64) with 18446744073709551616.
  rewrite Z.mod_small by lia. lia.
Qed.

(** Whether an identifier has a [case] label does not depend on the span. *)
Lemma switch_type_id_label id s s' :
  switch_type_id id s = None -> switch_type_id id s' = None.
Proof. destruct id; (reflexivity || discriminate). Qed.

(** The loop body, once the two header bytes are known: an iteration
    whose value bytes lie in the buffer runs the decoder; otherwise the
    width test answers, unless the cast width escapes it. *)
Lemma loop_body_header d payload ci json channel id :
  payload !! ci = Some channel -> payload !! S ci = Some id ->
  loop_body d payload ci json =
  match data_types_ d !! id with
  | None => Return (Unexpected UnkwownDataType)
  | Some data_type =>
    if (length payload <? ci + 2 + size data_type)%nat
    then
      if Z.of_nat (length payload)
         <? Z.of_nat (ci + 2) + to_ptrdiff (size data_type)
      then Return (Unexpected BadPayloadFormat)
      else if negb (standard data_type) then Throw
           else match switch_type_id id [] with
                | None => Return (Unexpected UnkwownDataType)
                | Some _ => Throw
                end
    else
      match decode_value data_type id
              (take (size data_type) (drop (ci + 2) payload)) with
      | Some (Some v) =>
        Continue (ci + 2 + size data_type)
                 (<[json_key data_type channel := v]> json)
      | Some None => Throw
      | None => Return (Unexpected UnkwownDataType)
      end
  end.
Proof.
  intros H0 H1. unfold loop_body, decode_value, make_span. rewrite H0, H1.
  destruct (data_types_ d !! id) as [dt|]; [|reflexivity].
  pose proof (to_ptrdiff_le (size dt)) as Hle.
  destruct (Nat.ltb_spec (length payload) (ci + 2 + size dt)) as [Hout|Hin].
  - destruct (_ <? _); [reflexivity|].
    destruct (Nat.leb_spec (ci + 2 + size dt) (length payload)); [lia|].
    destruct (negb (standard dt)); reflexivity.
  - destruct (Z.ltb_spec (Z.of_nat (length payload))
                (Z.of_nat (ci + 2) + to_ptrdiff (size dt))); [lia|].
    destruct (Nat.leb_spec (ci + 2 + size dt) (length payload)); [|lia].
    destruct (negb (standard dt)); simpl.
    + destruct (decoder_function dt _); reflexivity.
    + destruct (switch_type_id id _) as [[v|]|]; reflexivity.
Qed.

Lemma loop_body_no_header d payload ci json :
  payload !! ci = None \/ payload !! S ci = None ->
  loop_body d payload ci json = Throw.
Proof.
  unfold loop_body. intros [H|H]; rewrite H; [reflexivity|].
  destruct (payload !! ci); reflexivity.
Qed.

(** The outcomes of an iteration, by the position of the value bytes. *)
Ltac loop_body_cases H ch id dt :=
  match type of H with
  | context [loop_body ?d ?payload ?ci ?json] =>
    let H0 := fresh "H0" in
    let H1 := fresh "H1" in
    destruct (payload !! ci) as [ch|] eqn:H0;
      [|rewrite loop_body_no_header in H by auto; try discriminate H];
    [destruct (payload !! S ci) as [id|] eqn:H1;
      [|rewrite loop_body_no_header in H by auto; try discriminate H]|..];
    [rewrite (loop_body_header d payload ci json ch id H0 H1) in H;
     destruct (data_types_ d !! id) as [dt|] eqn:?|..]
  end.

Ltac out_of_range H :=
  repeat match type of H with
         | context [if ?c then _ else _] => destruct c
         | context [match switch_type_id ?i [] with _ => _ end] =>
           destruct (switch_type_id i [])
         end;
  try discriminate H.

Lemma loop_body_Return d payload ci json r :
  loop_body d payload ci json = Return r ->
  r = Unexpected UnkwownDataType \/ r = Unexpected BadPayloadFormat.
Proof.
  intros H. loop_body_cases H ch tid dt; [|inversion H; auto].
  destruct (_ <? _)%nat.
  - destruct (_ <? _); [inversion H; auto|].
    destruct (negb (standard dt)); [discriminate|].
    destruct (switch_type_id tid []); inversion H; auto.
  - destruct (decode_value dt tid _) as [[v|]|]; inversion H; auto.
Qed.

Lemma SIZE_MAX_Z : Z.of_nat SIZE_MAX = 18446744073709551615.
Proof. unfold SIZE_MAX. rewrite Z2Nat.id; [reflexivity|discriminate]. Qed.

#[global] Opaque SIZE_MAX.

Lemma to_ptrdiff_SIZE_MAX : to_ptrdiff SIZE_MAX = -1.
Proof. unfold to_ptrdiff. rewrite SIZE_MAX_Z. reflexivity. Qed.

(** Where the cursor advances in a buffer (of at most [PTRDIFF_MAX]
    bytes), the new offset is the old one plus two plus the cast width,
    as [current_index += static_cast<std::ptrdiff_t>(size)] computes. *)
Lemma loop_body_advance_cast d payload ci json ci' json' :
  Z.of_nat (length payload) <= PTRDIFF_MAX ->
  loop_body d payload ci json = Continue ci' json' ->
  exists id data_type,
    payload !! S ci = Some id /\
    data_types_ d !! id = Some data_type /\
    Z.of_nat ci' = Z.of_nat (ci + 2) + to_ptrdiff (size data_type).
Proof.
  intros Hbuf H. pose proof (loop_body_advance _ _ _ _ _ _ H) as Hadv.
  loop_body_cases H ch tid dt; [|discriminate].
  destruct (Nat.ltb_spec (length payload) (ci + 2 + size dt)) as [|Hin];
    [out_of_range H|].
  destruct (decode_value dt tid _) as [[v|]|]; try discriminate.
  injection H as <- _. exists tid, dt. repeat split; [assumption|].
  rewrite to_ptrdiff_small by lia. lia.
Qed.

Lemma decode_loop_not_PayloadEmpty d payload ci json :
  decode_loop d payload ci json <> Some (Unexpected PayloadEmpty).
Proof.
  revert ci json.
  apply (decode_loop_cases d payload (fun _ _ r => r <> Some (Unexpected PayloadEmpty))).
  - intros ci json _. destruct (ci <? length payload)%nat; discriminate.
  - auto.
  - intros ci json r _ H.
    apply loop_body_Return in H. destruct H; subst; discriminate.
  - discriminate.
Qed.

(** C4. An empty buffer is answered with [PayloadEmpty], and
    [PayloadEmpty] is the answer for the empty buffer only. *)
Theorem payload_empty_iff (d : Decoder) (encoded_payload : list byte) :
  decode d encoded_payload = Some (Unexpected PayloadEmpty)
  <-> encoded_payload = [].
Proof.
  split.
  - intros H. destruct encoded_payload as [|b bs]; [reflexivity|].
    rewrite decode_nonempty in H by discriminate.
    apply decode_loop_not_PayloadEmpty in H. contradiction.
  - intros ->. reflexivity.
Qed.

(** C10. A buffer of exactly two bytes is answered with
    [BadPayloadFormat], whatever the two bytes and whatever the registry:
    the loop needs three bytes to start a record, so the header is not
    read and its type byte is not looked up. *)
Theorem two_byte_buffer_bad_format (d : Decoder) (b0 b1 : byte) :
  decode d [b0; b1] = Some (Unexpected BadPayloadFormat)
  /\ forall ci json, scan_reaches d [b0; b1] ci json -> ci = 0%nat /\ json = ∅.
Proof.
  split.
  - rewrite decode_nonempty by discriminate.
    rewrite loop_stops by (simpl; lia). reflexivity.
  - intros ci json Hreach.
    destruct Hreach as [|ci json ci' json' _ Hguard _]; [auto|].
    simpl in Hguard. lia.
Qed.

Lemma scan_reaches_header d payload ci json channel :
  scan_reaches d payload ci json -> payload !! ci = Some channel ->
  payload <> [].
Proof. intros _ H ->. discriminate. Qed.

(** X20. [BadPayloadFormat] is the answer (a) for every buffer of length
    1; (b) whenever the scan reaches a header whose type is registered
    with a width that fits [std::ptrdiff_t] and is larger than the number
    of bytes left after the header; (c) whenever the loop stops with
    unconsumed bytes left. *)
Theorem bad_payload_format_cases (d : Decoder) :
  (forall b, decode d [b] = Some (Unexpected BadPayloadFormat)) /\
  (forall payload ci json channel id data_type,
      scan_reaches d payload ci json ->
      payload !! ci = Some channel -> payload !! S ci = Some id ->
      data_types_ d !! id = Some data_type ->
      Z.of_nat (size data_type) <= PTRDIFF_MAX ->
      (length payload - (ci + 2) < size data_type)%nat ->
      decode d payload = Some (Unexpected BadPayloadFormat)) /\
  (forall payload ci json,
      scan_reaches d payload ci json ->
      (length payload <= ci + 2)%nat ->
      (ci < length payload)%nat ->
      decode d payload = Some (Unexpected BadPayloadFormat)).
Proof.
  assert (Hstop : forall payload ci json,
             scan_reaches d payload ci json ->
             (length payload <= ci + 2)%nat -> (ci < length payload)%nat ->
             decode d payload = Some (Unexpected BadPayloadFormat)).
  { intros payload ci json Hs Hle Hlt.
    rewrite (scan_reaches_decode d payload ci json);
      [|intros ->; simpl in Hlt; lia|assumption].
    rewrite loop_stops by assumption.
    apply Nat.ltb_lt in Hlt. rewrite Hlt. reflexivity. }
  split; [|split].
  - intros b. rewrite decode_nonempty by discriminate.
    rewrite loop_stops by (simpl; lia). reflexivity.
  - intros payload ci json channel id dt Hs H0 H1 Hdt Hfit Hw.
    pose proof (lookup_lt_Some _ _ _ H1) as Hlen.
    destruct (Nat.le_gt_cases (length payload) (ci + 2)) as [Hle|Hgt].
    + apply (Hstop payload ci json); [assumption|assumption|lia].
    + rewrite (scan_reaches_decode d payload ci json);
        [|eapply scan_reaches_header; eassumption|assumption].
      rewrite decode_loop_eq.
      apply Nat.ltb_lt in Hgt. rewrite Hgt.
      rewrite (loop_body_header d payload ci json channel id) by assumption.
      rewrite Hdt, (to_ptrdiff_small _ Hfit).
      destruct (Nat.ltb_spec (length payload) (ci + 2 + size dt)); [|lia].
      destruct (Z.ltb_spec (Z.of_nat (length payload))
                  (Z.of_nat (ci + 2) + Z.of_nat (size dt))); [reflexivity|lia].
  - exact Hstop.
Qed.

(** C1 (amended). When the scan reaches a header whose type byte has no
    registry entry, [decode] answers [UnkwownDataType] provided at least
    one byte follows the header; when the header is the last two bytes of
    the buffer the loop does not read it and the answer is
    [BadPayloadFormat]. *)
Theorem unknown_type_needs_value_byte (d : Decoder) (payload : list byte)
    (ci : nat) (json : gmap string Json) (channel id : byte) :
  scan_reaches d payload ci json ->
  payload !! ci = Some channel -> payload !! S ci = Some id ->
  data_types_ d !! id = None ->
  ((ci + 2 < length payload)%nat ->
   decode d payload = Some (Unexpected UnkwownDataType)) /\
  ((ci + 2 = length payload)%nat ->
   decode d payload = Some (Unexpected BadPayloadFormat)).
Proof.
  intros Hs H0 H1 Hid.
  rewrite (scan_reaches_decode d payload ci json);
    [|eapply scan_reaches_header; eassumption|assumption].
  split; intros Hlen.
  - rewrite decode_loop_eq. apply Nat.ltb_lt in Hlen. rewrite Hlen.
    rewrite (loop_body_header d payload ci json channel id) by assumption.
    rewrite Hid. reflexivity.
  - rewrite loop_stops by lia.
    destruct (Nat.ltb_spec ci (length payload)); [reflexivity|lia].
Qed.

(** ** Records and iterations *)

Lemma registered_decodable d r :
  registry_total d -> registered_record d r -> decodable_record d r.
Proof.
  intros Htot (dt & Hdt & Hlen).
  destruct (Htot _ _ Hdt) as [Hpos Hval].
  destruct (Hval _ Hlen) as [v Hv].
  exists dt, v. auto.
Qed.

(** The iteration that consumes a decodable record lying at the cursor. *)
Lemma loop_body_record d pre r rest json :
  decodable_record d r ->
  loop_body d (pre ++ tlv_bytes r ++ rest) (length pre) json
  = Continue (length (pre ++ tlv_bytes r)) (store d json r).
Proof.
  intros (dt & v & Hdt & Hlen & Hpos & Hv).
  destruct r as [ch id val]. simpl in *.
  rewrite (loop_body_header d _ _ json ch id).
  - rewrite Hdt.
    assert (Hdrop : drop (length pre + 2) (pre ++ ch :: id :: val ++ rest)
                    = val ++ rest).
    { rewrite drop_app_add. reflexivity. }
    rewrite Hdrop, <- Hlen, take_app_length, Hv.
    destruct (Nat.ltb_spec (length (pre ++ ch :: id :: val ++ rest))
                           (length pre + 2 + length val)) as [Hlt|_].
    { rewrite !length_app in Hlt. simpl in Hlt. rewrite length_app in Hlt. lia. }
    unfold store, tlv_entry. simpl. rewrite Hdt. simpl. rewrite Hv.
    f_equal. rewrite length_app. simpl. lia.
  - rewrite lookup_app_r by lia. rewrite Nat.sub_diag. reflexivity.
  - rewrite lookup_app_r by lia.
    replace (S (length pre) - length pre)%nat with 1%nat by lia. reflexivity.
Qed.

(** Forward direction: a buffer made of decodable records is decoded to
    the object obtained by storing the records in order. *)
Lemma decode_loop_records d recs :
  Forall (decodable_record d) recs ->
  forall pre json,
    decode_loop d (pre ++ concat (map tlv_bytes recs)) (length pre) json
    = Some (Value (JObject (fold_left (store d) recs json))).
Proof.
  induction 1 as [|r recs Hr _ IH]; intros pre json.
  - simpl. rewrite app_nil_r, loop_stops by lia.
    rewrite Nat.ltb_irrefl. reflexivity.
  - change (concat (map tlv_bytes (r :: recs)))
      with (tlv_bytes r ++ concat (map tlv_bytes recs)).
    rewrite decode_loop_eq.
    destruct (Nat.ltb_spec (length pre + 2)
                (length (pre ++ tlv_bytes r ++ concat (map tlv_bytes recs))))
      as [_|Hge].
    + rewrite loop_body_record by assumption.
      rewrite (app_assoc pre). apply IH.
    + destruct Hr as (dt & v & _ & Hlen & Hpos & _).
      rewrite !length_app in Hge. unfold tlv_bytes in Hge. simpl in Hge. lia.
Qed.

Lemma decode_records d recs :
  recs <> [] -> Forall (decodable_record d) recs ->
  decode d (concat (map tlv_bytes recs))
  = Some (Value (JObject (fold_left (store d) recs ∅))).
Proof.
  intros Hne Hrecs. rewrite decode_nonempty.
  - apply (decode_loop_records d recs Hrecs []).
  - destruct recs as [|r recs]; [congruence|]. discriminate.
Qed.

(** What a completed iteration consumed. *)
Lemma loop_body_Continue_inv d payload ci json ci' json' :
  loop_body d payload ci json = Continue ci' json' ->
  exists r,
    drop ci payload = tlv_bytes r ++ drop ci' payload /\
    registered_record d r /\
    is_Some (tlv_entry d r) /\
    json' = store d json r.
Proof.
  intros H.
  destruct (payload !! ci) as [ch|] eqn:H0;
    [|unfold loop_body in H; rewrite H0 in H; discriminate].
  destruct (payload !! S ci) as [id|] eqn:H1;
    [|unfold loop_body in H; rewrite H0, H1 in H; discriminate].
  rewrite (loop_body_header d payload ci json ch id) in H by assumption.
  destruct (data_types_ d !! id) as [dt|] eqn:Hdt; [|discriminate].
  destruct (Nat.ltb_spec (length payload) (ci + 2 + size dt)) as [|Hle];
    [out_of_range H|].
  destruct (decode_value dt id _) as [[v|]|] eqn:Hv; try discriminate.
  inversion H; subst ci' json'; clear H.
  exists (mkTLV ch id (take (size dt) (drop (ci + 2) payload))).
  assert (Hlen : length (take (size dt) (drop (ci + 2) payload)) = size dt).
  { rewrite length_take, length_drop. lia. }
  repeat split.
  - rewrite (drop_S _ _ _ H0), (drop_S _ _ _ H1).
    unfold tlv_bytes. simpl. do 2 f_equal.
    replace (S (S ci)) with (ci + 2)%nat by lia.
    rewrite <- (drop_drop payload (size dt) (ci + 2)).
    symmetry. apply take_drop.
  - exists dt. simpl. auto.
  - unfold tlv_entry. simpl. rewrite Hdt. simpl. rewrite Hv. eauto.
  - unfold store, tlv_entry. simpl. rewrite Hdt. simpl. rewrite Hv. reflexivity.
Qed.

(** Backward direction: a successful scan from the cursor consumed a
    sequence of registered records that makes up the rest of the buffer. *)
Lemma decode_loop_Value_inv d payload ci json j :
  decode_loop d payload ci json = Some (Value j) ->
  exists recs,
    drop ci payload = concat (map tlv_bytes recs) /\
    Forall (registered_record d) recs /\
    Forall (fun r => is_Some (tlv_entry d r)) recs /\
    j = JObject (fold_left (store d) recs json).
Proof.
  revert ci json j.
  apply (decode_loop_cases d payload
           (fun ci json res => forall j, res = Some (Value j) ->
              exists recs,
                drop ci payload = concat (map tlv_bytes recs) /\
                Forall (registered_record d) recs /\
                Forall (fun r => is_Some (tlv_entry d r)) recs /\
                j = JObject (fold_left (store d) recs json))).
  - intros ci json _ j H.
    destruct (Nat.ltb_spec ci (length payload)) as [|Hge]; [discriminate|].
    inversion H; subst. exists []. rewrite drop_ge by assumption. auto.
  - intros ci json ci' json' _ Hbody IH j H.
    destruct (IH j H) as (recs & Hdrop & Hreg & Hent & ->).
    destruct (loop_body_Continue_inv _ _ _ _ _ _ Hbody)
      as (r & Hr & Hrreg & Hre & ->).
    exists (r :: recs). simpl. rewrite Hr, Hdrop. auto.
  - intros ci json r _ Hbody j H.
    apply loop_body_Return in Hbody. destruct Hbody; subst; discriminate.
  - discriminate.
Qed.

(** When the widths fit and the decoders yield values no iteration
    throws, so [decode] always returns. *)
Lemma registry_total_yield d : registry_total d -> decoders_yield d.
Proof. intros Htot id dt Hdt. apply (Htot id dt Hdt). Qed.

Lemma loop_body_no_throw d payload ci json :
  widths_fit d -> decoders_yield d -> (ci + 2 < length payload)%nat ->
  loop_body d payload ci json <> Throw.
Proof.
  intros Hfit Hyield Hguard H.
  destruct (lookup_lt_is_Some_2 payload ci) as [ch H0]; [lia|].
  destruct (lookup_lt_is_Some_2 payload (S ci)) as [id H1]; [lia|].
  rewrite (loop_body_header d payload ci json ch id) in H by assumption.
  destruct (data_types_ d !! id) as [dt|] eqn:Hdt; [|discriminate].
  rewrite (to_ptrdiff_small _ (Hfit _ _ Hdt)) in H.
  destruct (Nat.ltb_spec (length payload) (ci + 2 + size dt)) as [Hout|Hle].
  - destruct (Z.ltb_spec (Z.of_nat (length payload))
                (Z.of_nat (ci + 2) + Z.of_nat (size dt))); [discriminate|lia].
  - destruct (Hyield _ _ Hdt (take (size dt) (drop (ci + 2) payload)))
      as [v Hv].
    { rewrite length_take, length_drop. lia. }
    rewrite Hv in H. discriminate.
Qed.

Lemma decode_loop_returns d payload ci json :
  widths_fit d -> decoders_yield d ->
  exists r, decode_loop d payload ci json = Some r.
Proof.
  intros Hfit Hyield. revert ci json.
  apply (decode_loop_cases d payload (fun _ _ res => exists r, res = Some r)).
  - intros ci json _. destruct (ci <? length payload)%nat; eauto.
  - auto.
  - eauto.
  - intros ci json Hguard H. exfalso. eapply loop_body_no_throw; eauto.
Qed.

Lemma decode_returns d payload :
  widths_fit d -> decoders_yield d -> exists r, decode d payload = Some r.
Proof.
  intros Hfit Hyield. unfold decode.
  destruct (length payload =? 0)%nat; [eauto|].
  apply decode_loop_returns; assumption.
Qed.

(** ** Keys of the result *)

Lemma store_lookup d json r key :
  store d json r !! key =
  match tlv_entry d r with
  | Some (k, w) => if decide (k = key) then Some w else json !! key
  | None => json !! key
  end.
Proof.
  unfold store. destruct (tlv_entry d r) as [[k w]|]; [|reflexivity].
  destruct (decide (k = key)) as [->|Hne].
  - apply lookup_insert_eq.
  - apply lookup_insert_ne, Hne.
Qed.

Lemma store_lookup_no_key d json r key :
  ~ has_key d r key -> store d json r !! key = json !! key.
Proof.
  intros Hno. rewrite store_lookup.
  destruct (tlv_entry d r) as [[k w]|] eqn:He; [|reflexivity].
  destruct (decide (k = key)) as [->|]; [|reflexivity].
  exfalso. apply Hno. exists w. exact He.
Qed.

(** The value found under a key is the one of the last record stored
    under it, or the initial one when no record is. *)
Lemma fold_store_lookup d recs :
  forall json key v,
    fold_left (store d) recs json !! key = Some v <->
    (exists i, last_stored d recs key v i) \/
    (json !! key = Some v /\
     forall i r, recs !! i = Some r -> ~ has_key d r key).
Proof.
  induction recs as [|r0 recs IH]; intros json key v.
  - simpl. split.
    + intros H. right. split; [exact H|]. intros i r Hi. discriminate.
    + intros [(i & r & Hi & _)|[H _]]; [discriminate|exact H].
  - simpl. rewrite IH. split.
    + intros [(i & r & Hi & He & Hlast)|[Hst Hnone]].
      * left. exists (S i), r. repeat split; [exact Hi|exact He|].
        intros [|i'] r' Hlt Hi'; [lia|]. apply (Hlast i'); [lia|exact Hi'].
      * rewrite store_lookup in Hst.
        destruct (tlv_entry d r0) as [[k w]|] eqn:He0.
        -- destruct (decide (k = key)) as [->|Hne].
           ++ inversion Hst; subst w. left. exists 0%nat, r0.
              repeat split; [exact He0|].
              intros [|i'] r' Hlt Hi'; [lia|]. apply (Hnone i'), Hi'.
           ++ right. split; [exact Hst|].
              intros [|i] r Hi.
              ** inversion Hi; subst r. intros [w' Hw']. congruence.
              ** apply (Hnone i), Hi.
        -- right. split; [exact Hst|].
           intros [|i] r Hi.
           ++ inversion Hi; subst r. intros [w' Hw']. congruence.
           ++ apply (Hnone i), Hi.
    + intros [(i & r & Hi & He & Hlast)|[Hj Hnone]].
      * destruct i as [|i].
        -- inversion Hi; subst r. right. split.
           ++ rewrite store_lookup, He. rewrite decide_True by reflexivity.
              reflexivity.
           ++ intros i r Hr. apply (Hlast (S i)); [lia|exact Hr].
        -- left. exists i, r. repeat split; [exact Hi|exact He|].
           intros i' r' Hlt Hi'. apply (Hlast (S i')); [lia|exact Hi'].
      * right. split.
        -- rewrite store_lookup_no_key; [exact Hj|]. apply (Hnone 0%nat). reflexivity.
        -- intros i r Hr. apply (Hnone (S i)), Hr.
Qed.

Lemma last_stored_unique d recs key v v' i i' :
  last_stored d recs key v i -> last_stored d recs key v' i' -> i = i'.
Proof.
  intros (r & Hi & He & Hlast) (r' & Hi' & He' & Hlast').
  destruct (Nat.lt_trichotomy i i') as [Hlt|[Heq|Hgt]]; [|exact Heq|].
  - exfalso. apply (Hlast i' r' Hlt Hi'). exists v'. exact He'.
  - exfalso. apply (Hlast' i r Hgt Hi). exists v. exact He.
Qed.

Lemma length_concat_tlv (recs : list TLV) :
  length (concat (map tlv_bytes recs))
  = sum_list (map (fun r => 2 + length (tlv_value r))%nat recs).
Proof.
  induction recs as [|r recs IH]; [reflexivity|].
  simpl. rewrite length_app, IH. reflexivity.
Qed.

Lemma registered_record_width d r :
  registered_record d r -> length (tlv_value r) = byte_width d r.
Proof.
  intros (dt & Hdt & Hlen). unfold byte_width. rewrite Hdt. exact Hlen.
Qed.

(** ** The built-in registry *)

Lemma Decoder_ctor_lookup id data_type :
  data_types_ Decoder_ctor !! id = Some data_type ->
  In data_type get_v1_standard_data_types /\ type_id data_type = id.
Proof.
  destruct id; vm_compute; intros H; try discriminate H;
    injection H as <-; split; try reflexivity; tauto.
Qed.

(** Every built-in decoder yields a value on a slice of its width. *)
Lemma standard_data_types_decode data_type data_span :
  In data_type get_v1_standard_data_types ->
  length data_span = size data_type ->
  exists v, decode_value data_type (type_id data_type) data_span = Some (Some v).
Proof.
  intros Hin Hlen. simpl in Hin.
  repeat (destruct Hin as [<-|Hin]); [..|contradiction]; simpl in Hlen;
    repeat (destruct data_span as [|? data_span]; simpl in Hlen; try lia);
    unfold decode_value, switch_type_id, standard_data_type, type_id, standard,
      negb, decode_digital_input, decode_digital_output, decode_analog_input,
      decode_analog_output, decode_luminosity, decode_presence,
      decode_temperature, decode_humidity, decode_accelerometer,
      decode_barometer, decode_gyrometer, decode_gps, subspan;
    cbn [length Nat.add Nat.leb take drop at_ lookup list_lookup mbind option_bind];
    rewrite ?bytes_to_int16_signed, ?bytes_to_uint16_be, ?bytes_to_int24_signed;
    cbn [mbind option_bind fmap option_fmap option_map];
    eauto.
Qed.

Lemma registry_total_Decoder_ctor : registry_total Decoder_ctor.
Proof.
  intros id dt H. apply Decoder_ctor_lookup in H. destruct H as [Hin <-].
  split.
  - simpl in Hin. repeat (destruct Hin as [<-|Hin]); [..|contradiction];
      simpl; lia.
  - intros data_span Hlen. apply standard_data_types_decode; assumption.
Qed.

(** ** Success of the scan *)

Lemma widths_fit_Decoder_ctor : widths_fit Decoder_ctor.
Proof.
  intros id dt H. apply Decoder_ctor_lookup in H. destruct H as [Hin _].
  simpl in Hin. repeat (destruct Hin as [<-|Hin]); [..|contradiction];
    unfold PTRDIFF_MAX; simpl; lia.
Qed.

(** C2 (amended).  For a registry whose entries have a positive width
    that fits [std::ptrdiff_t] and a decoder that yields a value on every
    slice of that width (the built-in registry is one), and for every
    non-empty buffer: [decode] succeeds if and only if the buffer is
    exactly a sequence of records (channel byte, type byte, [byte_width]
    value bytes) of registered types.  On success the records consumed
    make up the whole buffer (the sum of [2 + byte_width] is its length)
    and the result holds, under each key, the value of the last consumed
    record stored under that key, and nothing else.  Otherwise [decode]
    returns an error. *)
Theorem decode_succeeds_iff_partition (d : Decoder)
    (encoded_payload : list byte) :
  registry_total d -> widths_fit d -> encoded_payload <> [] ->
  ((exists j, decode d encoded_payload = Some (Value j))
   <-> exists recs, partitions d encoded_payload recs) /\
  (forall j, decode d encoded_payload = Some (Value j) ->
     exists recs m,
       partitions d encoded_payload recs /\
       sum_list (map (fun r => 2 + byte_width d r)%nat recs)
         = length encoded_payload /\
       j = JObject m /\
       forall key v, m !! key = Some v <->
         exists i, last_stored d recs key v i) /\
  ((~ exists recs, partitions d encoded_payload recs) ->
   exists e, decode d encoded_payload = Some (Unexpected e)).
Proof.
  intros Htot Hfit Hne.
  assert (Hinv : forall j, decode d encoded_payload = Some (Value j) ->
            exists recs,
              partitions d encoded_payload recs /\
              j = JObject (fold_left (store d) recs ∅)).
  { intros j Hj. rewrite decode_nonempty in Hj by assumption.
    apply decode_loop_Value_inv in Hj.
    destruct Hj as (recs & Hdrop & Hreg & _ & ->).
    exists recs. repeat split; assumption. }
  split; [split|split].
  - intros [j Hj]. destruct (Hinv j Hj) as (recs & Hp & _). eauto.
  - intros (recs & -> & Hreg).
    eexists. apply decode_records.
    + intros ->. apply Hne. reflexivity.
    + eapply Forall_impl; [exact Hreg|].
      intros r. apply registered_decodable, Htot.
  - intros j Hj. destruct (Hinv j Hj) as (recs & [Hbytes Hreg] & ->).
    exists recs, (fold_left (store d) recs ∅). repeat split; try assumption.
    + rewrite Hbytes, length_concat_tlv. f_equal.
      apply map_ext_Forall.
      eapply Forall_impl; [exact Hreg|]. intros r Hr. simpl.
      rewrite (registered_record_width d r Hr). reflexivity.
    + intros Hkv. apply fold_store_lookup in Hkv.
      destruct Hkv as [Hi|[Hempty _]]; [exact Hi|].
      rewrite lookup_empty in Hempty. discriminate.
    + intros Hi. apply fold_store_lookup. left. exact Hi.
  - intros Hnone.
    destruct (decode_returns d encoded_payload Hfit (registry_total_yield d Htot))
      as [[j|e] Hr].
    + exfalso. apply Hnone.
      destruct (Hinv j Hr) as (recs & Hp & _). eauto.
    + eauto.
Qed.

(** ** Registration *)

Section RegistrationFacts.
Variable DataType_ctor : byte -> string -> nat -> DataType.

Lemma add_data_type_existing d id nm sz :
  is_Some (data_types_ d !! id) -> add_data_type DataType_ctor d id nm sz = d.
Proof.
  intros [dt Hdt]. unfold add_data_type. rewrite Hdt. reflexivity.
Qed.

Lemma add_data_type_fresh d id nm sz :
  data_types_ d !! id = None ->
  data_types_ (add_data_type DataType_ctor d id nm sz)
  = <[id := DataType_ctor id nm sz]> (data_types_ d).
Proof.
  intros Hid. unfold add_data_type, emplace. rewrite Hid. reflexivity.
Qed.

Lemma add_data_type_registered d id nm sz :
  is_Some (data_types_ (add_data_type DataType_ctor d id nm sz) !! id).
Proof.
  destruct (data_types_ d !! id) as [dt|] eqn:Hid.
  - rewrite add_data_type_existing by eauto. eauto.
  - rewrite add_data_type_fresh by assumption.
    rewrite lookup_insert_eq. eauto.
Qed.

Lemma add_data_type_lookup_Some d id nm sz id0 data_type :
  data_types_ d !! id0 = Some data_type ->
  data_types_ (add_data_type DataType_ctor d id nm sz) !! id0 = Some data_type.
Proof.
  intros H0. destruct (data_types_ d !! id) as [dt|] eqn:Hid.
  - rewrite add_data_type_existing by eauto. exact H0.
  - rewrite add_data_type_fresh by assumption.
    rewrite lookup_insert_ne; [exact H0|]. intros ->. congruence.
Qed.

Lemma add_data_types_lookup_Some calls : forall d id0 data_type,
  data_types_ d !! id0 = Some data_type ->
  data_types_ (add_data_types DataType_ctor d calls) !! id0 = Some data_type.
Proof.
  induction calls as [|c calls IH]; intros d id0 dt H0; [exact H0|].
  simpl. apply IH, add_data_type_lookup_Some, H0.
Qed.
End RegistrationFacts.

(** C9. Registering a [type_id] that already has an entry, built-in or
    registered before, leaves the registry unchanged; hence registering
    the same [type_id] twice is the same as registering it once (with the
    first name and width). *)
Theorem add_data_type_first_wins
    (DataType_ctor : byte -> string -> nat -> DataType)
    (d : Decoder) (id : byte) (nm nm' : string) (sz sz' : nat) :
  (is_Some (data_types_ d !! id) ->
   add_data_type DataType_ctor d id nm' sz' = d) /\
  add_data_type DataType_ctor (add_data_type DataType_ctor d id nm sz) id nm' sz'
  = add_data_type DataType_ctor d id nm sz.
Proof.
  split.
  - apply add_data_type_existing.
  - apply add_data_type_existing, add_data_type_registered.
Qed.

(** ** Single and repeated records *)

Lemma temperature_record_decodable d channel b0 b1 :
  data_types_ d !! x67 = Some (standard_data_type x67 "Temperature" 2) ->
  decodable_record d (mkTLV channel x67 [b0; b1]).
Proof.
  intros Hdt.
  exists (standard_data_type x67 "Temperature" 2),
         (JFloat (double_of_int (be_signed16 b0 b1) / 10)%float).
  repeat split; [exact Hdt|simpl; lia|].
  unfold decode_value. simpl. rewrite decode_temperature_signed. reflexivity.
Qed.

(** C6. Temperature records.  For the built-in registry, extended or not
    by [add_data_type] calls, the buffer [[channel; 0x67; b0; b1]] decodes
    to the object with the single key ["Temperature_<channel>"], whose
    value is the big-endian signed 16-bit value of [(b0, b1)] divided by
    10; [[01; 67; 01; 90]] gives [Temperature_1 = 40.0] and
    [[02; 67; FF; 9C]] gives [Temperature_2 = -10.0]. *)
Theorem decode_temperature_record
    (DataType_ctor : byte -> string -> nat -> DataType)
    (calls : list (byte * string * nat)) (channel b0 b1 : byte) :
  decode (add_data_types DataType_ctor Decoder_ctor calls)
         [channel; x67; b0; b1]
  = Some (Value (JObject
      {[ "Temperature_" +:+ to_string channel
         := JFloat (double_of_int (be_signed16 b0 b1) / 10)%float ]})) /\
  decode Decoder_ctor [x01; x67; x01; x90]
  = Some (Value (JObject {[ "Temperature_1"%string := JFloat 40%float ]})) /\
  decode Decoder_ctor [x02; x67; xff; x9c]
  = Some (Value (JObject {[ "Temperature_2"%string := JFloat (-10)%float ]})).
Proof.
  split; [|split; reflexivity].
  set (d := add_data_types DataType_ctor Decoder_ctor calls).
  assert (Hdt : data_types_ d !! x67
                = Some (standard_data_type x67 "Temperature" 2)).
  { apply add_data_types_lookup_Some. reflexivity. }
  pose proof (temperature_record_decodable d channel b0 b1 Hdt) as Hr.
  change [channel; x67; b0; b1]
    with (concat (map tlv_bytes [mkTLV channel x67 [b0; b1]])).
  rewrite (decode_records d [mkTLV channel x67 [b0; b1]]);
    [|discriminate|repeat constructor; exact Hr].
  simpl. unfold store, tlv_entry, decode_value. simpl. rewrite Hdt. simpl.
  rewrite decode_temperature_signed. simpl.
  rewrite insert_empty. reflexivity.
Qed.

(** C8. Key collisions.  In a buffer made of decodable records, let
    [r1] and a later [r2] have types of the same name and the same
    channel byte, with no record stored under their key after [r2].
    Then [decode] succeeds and the result maps the shared key
    ["<name>_<channel>"] to the value decoded from [r2]; when the buffer
    holds just these two records the result is that single entry, so the
    value of [r1] is gone. *)
Theorem duplicate_key_later_wins (d : Decoder)
    (before between after : list TLV) (r1 r2 : TLV)
    (dt1 dt2 : DataType) (v2 : Json) :
  Forall (decodable_record d) (before ++ r1 :: between ++ r2 :: after) ->
  data_types_ d !! tlv_type r1 = Some dt1 ->
  data_types_ d !! tlv_type r2 = Some dt2 ->
  name dt1 = name dt2 ->
  tlv_channel r1 = tlv_channel r2 ->
  decode_value dt2 (tlv_type r2) (tlv_value r2) = Some (Some v2) ->
  Forall (fun r => ~ has_key d r (json_key dt2 (tlv_channel r2))) after ->
  exists m,
    decode d (concat (map tlv_bytes (before ++ r1 :: between ++ r2 :: after)))
    = Some (Value (JObject m)) /\
    m !! (name dt2 +:+ "_" +:+ to_string (tlv_channel r2)) = Some v2 /\
    (before = [] -> between = [] -> after = [] ->
     m = {[ name dt2 +:+ "_" +:+ to_string (tlv_channel r2) := v2 ]}).
Proof.
  intros Hrecs Hdt1 Hdt2 Hname Hch Hv2 Hafter.
  assert (He2 : tlv_entry d r2 = Some (json_key dt2 (tlv_channel r2), v2)).
  { unfold tlv_entry. rewrite Hdt2. simpl. rewrite Hv2. reflexivity. }
  eexists. split; [|split].
  - apply decode_records; [|exact Hrecs].
    destruct before; discriminate.
  - apply fold_store_lookup. left.
    exists (length (before ++ r1 :: between)), r2.
    replace (before ++ r1 :: between ++ r2 :: after)
      with ((before ++ r1 :: between) ++ r2 :: after)
      by (rewrite <- app_assoc; reflexivity).
    repeat split.
    + apply list_lookup_middle. reflexivity.
    + exact He2.
    + intros i' r' Hlt Hi'.
      rewrite lookup_app_r in Hi' by lia.
      destruct (i' - length (before ++ r1 :: between))%nat as [|k] eqn:Hk; [lia|].
      simpl in Hi'. eapply Forall_lookup_1 in Hafter; [exact Hafter|exact Hi'].
  - intros -> -> ->. simpl.
    apply Forall_inv in Hrecs. destruct Hrecs as (dt & v1 & Hdt & _ & _ & Hv1).
    assert (dt = dt1) as -> by congruence.
    unfold store at 2. unfold tlv_entry. rewrite Hdt1. simpl. rewrite Hv1.
    unfold store. rewrite He2.
    unfold json_key. rewrite Hname, Hch.
    rewrite insert_insert_eq, insert_empty. reflexivity.
Qed.

(** ** The unit tests of [decoder_test.cpp] and the example payload *)

Example DecodeEmptyPayload :
  decode Decoder_ctor [] = Some (Unexpected PayloadEmpty).
Proof. reflexivity. Qed.

Example DecodeUnknownDataType :
  decode Decoder_ctor [x01; xff; x00] = Some (Unexpected UnkwownDataType).
Proof. reflexivity. Qed.

Example DecodeDigitalInput :
  decode Decoder_ctor [x01; x00; x01]
  = Some (Value (JObject {[ "Digital Input_1"%string := JUnsigned 1 ]})).
Proof. reflexivity. Qed.

Example DecodeDigitalOutput :
  decode Decoder_ctor [x02; x01; x00]
  = Some (Value (JObject {[ "Digital Output_2"%string := JUnsigned 0 ]})).
Proof. reflexivity. Qed.

Example DecodeAnalogInput :
  decode Decoder_ctor [x01; x02; x0b; xb8]
  = Some (Value (JObject {[ "Analog Input_1"%string := JFloat 30%float ]})) /\
  decode Decoder_ctor [x02; x02; xff; x9c]
  = Some (Value (JObject {[ "Analog Input_2"%string := JFloat (-1)%float ]})).
Proof. split; reflexivity. Qed.

Example DecodeAnalogOutput :
  decode Decoder_ctor [x02; x03; xff; x38]
  = Some (Value (JObject {[ "Analog Output_2"%string := JFloat (-2)%float ]})).
Proof. reflexivity. Qed.

Example DecodeLuminosity :
  decode Decoder_ctor [x04; x65; xff; xff]
  = Some (Value (JObject {[ "Luminosity_4"%string := JUnsigned 65535 ]})).
Proof. reflexivity. Qed.

Example DecodePresence :
  decode Decoder_ctor [x01; x66; x01]
  = Some (Value (JObject {[ "Presence_1"%string := JUnsigned 1 ]})).
Proof. reflexivity. Qed.

Example DecodeTemperature :
  decode Decoder_ctor [x06; x67; x12; x34]
  = Some (Value (JObject {[ "Temperature_6"%string := JFloat 466%float ]})).
Proof. reflexivity. Qed.

Example DecodeHumidity :
  decode Decoder_ctor [x04; x68; xff; xff]
  = Some (Value (JObject {[ "Humidity_4"%string := JFloat 6553.5%float ]})).
Proof. reflexivity. Qed.

(** The payload of [basic_example.cpp]: two temperatures, an
    accelerometer, a negative temperature and a GPS fix. *)
Example basic_example_payload :
  exists m,
    decode Decoder_ctor
      [ x03; x67; x01; x10;  x05; x67; x00; xff;
        x06; x71; x04; xd2; xfb; x2e; x00; x00;
        x01; x67; xff; xd7;
        x01; x88; x06; x76; x5f; x0d; x69; xf6; x00; x03; xe8 ]
    = Some (Value (JObject m)) /\
    m !! "Temperature_5"%string = Some (JFloat 25.5%float) /\
    m !! "Accelerometer_6"%string
    = Some (JObject (list_to_map
        [ ("x"%string, JFloat (1234 / 1000)%float);
          ("y"%string, JFloat (-1234 / 1000)%float);
          ("z"%string, JFloat 0%float) ])) /\
    m !! "GPS_1"%string
    = Some (JObject (list_to_map
        [ ("latitude"%string, JFloat (423519 / 10000)%float);
          ("longitude"%string, JFloat (879094 / 10000)%float);
          ("altitude"%string, JFloat 10%float) ])).
Proof. eexists. split; [vm_compute; reflexivity|]. repeat split. Qed.

(** ** Concrete instances *)

(** Without the conditions on the registry the equivalence of C2 fails,
    already for registries [add_data_type] builds: with a type of width 0
    the buffer [[01; 10]] is exactly one record of a registered type, yet
    the loop does not start and the answer is [BadPayloadFormat]; with a
    type whose [decoder_function] is empty (here of width 4) a buffer that
    is exactly one record makes [decode] throw, which is neither a success
    nor an error. *)
Lemma partition_without_success_counterexample :
  let ctor := fun id nm sz => mkDataType id nm sz false (fun _ => None) in
  let d0 := add_data_type ctor Decoder_ctor x10 "Zero" 0 in
  let d4 := add_data_type ctor Decoder_ctor x10 "Four" 4 in
  partitions d0 [x01; x10] [mkTLV x01 x10 []] /\
  decode d0 [x01; x10] = Some (Unexpected BadPayloadFormat) /\
  partitions d4 [x01; x10; x00; x00; x00; x00]
             [mkTLV x01 x10 [x00; x00; x00; x00]] /\
  decode d4 [x01; x10; x00; x00; x00; x00] = None.
Proof.
  intros ctor d0 d4. repeat split.
  - repeat constructor. exists (ctor x10 "Zero"%string 0%nat).
    split; reflexivity.
  - repeat constructor. exists (ctor x10 "Four"%string 4%nat).
    split; reflexivity.
Qed.

(** C3 (defect of the code).  The width test of [decode] is meant to
    answer [BadPayloadFormat] when fewer bytes remain than the type
    requires, but it compares with the width cast to [std::ptrdiff_t].
    After [add_data_type(0x10, "Big", SIZE_MAX)] the cast width is -1:
    on [[01; 10; 00]] the scan is at a header of a registered type whose
    width exceeds the one byte left, the test lets it through, and the
    empty [decoder_function] is called on a span that is not in the
    buffer: [decode] does not return [BadPayloadFormat]. *)
Theorem oversize_width_escapes_width_test :
  let ctor := fun id nm sz => mkDataType id nm sz false (fun _ => None) in
  let d := add_data_type ctor Decoder_ctor x10 "Big" SIZE_MAX in
  scan_reaches d [x01; x10; x00] 0 ∅ /\
  [x01; x10; x00] !! 0%nat = Some x01 /\
  [x01; x10; x00] !! 1%nat = Some x10 /\
  data_types_ d !! x10 = Some (ctor x10 "Big"%string SIZE_MAX) /\
  (length [x01; x10; x00] - (0 + 2) < SIZE_MAX)%nat /\
  to_ptrdiff SIZE_MAX = -1 /\
  decode d [x01; x10; x00] = None.
Proof.
  intros ctor d.
  assert (Hdt : data_types_ d !! x10 = Some (ctor x10 "Big"%string SIZE_MAX)).
  { unfold d. rewrite add_data_type_fresh by reflexivity.
    apply lookup_insert_eq. }
  pose proof SIZE_MAX_Z as Hmax.
  split; [constructor|]. do 2 (split; [reflexivity|]).
  split; [exact Hdt|]. split; [simpl length; lia|].
  split; [exact to_ptrdiff_SIZE_MAX|].
  clearbody d.
  set (dt := ctor x10 "Big"%string SIZE_MAX) in *.
  assert (Hsize : size dt = SIZE_MAX) by reflexivity.
  assert (Hstd : standard dt = false) by reflexivity.
  clearbody dt. clear ctor.
  rewrite decode_nonempty by discriminate.
  rewrite decode_loop_eq.
  change (0 + 2 <? length [x01; x10; x00])%nat with true. cbv iota.
  rewrite (loop_body_header d [x01; x10; x00] 0 ∅ x01 x10 eq_refl eq_refl).
  rewrite Hdt, Hsize, Hstd, to_ptrdiff_SIZE_MAX.
  destruct (Nat.ltb_spec (length [x01; x10; x00]) (0 + 2 + SIZE_MAX))
    as [_|Hge]; [reflexivity|].
  simpl length in Hge. lia.
Qed.

(** C1 as first stated fails when the unregistered header is the last two
    bytes: on [[01; FF]] the scan is at that header, [0xFF] has no entry,
    and the answer is [BadPayloadFormat], not [UnkwownDataType]. *)
Lemma unknown_type_final_header_counterexample :
  scan_reaches Decoder_ctor [x01; xff] 0 ∅ /\
  [x01; xff] !! 0%nat = Some x01 /\
  [x01; xff] !! 1%nat = Some xff /\
  data_types_ Decoder_ctor !! xff = None /\
  decode Decoder_ctor [x01; xff] = Some (Unexpected BadPayloadFormat) /\
  decode Decoder_ctor [x01; xff] <> Some (Unexpected UnkwownDataType).
Proof.
  split; [constructor|].
  do 4 (split; [reflexivity|]).
  discriminate.
Qed.

Lemma unknown_type_needs_value_byte_witness :
  scan_reaches Decoder_ctor [x01; xff; x00] 0 ∅ /\
  [x01; xff; x00] !! 0%nat = Some x01 /\
  [x01; xff; x00] !! 1%nat = Some xff /\
  data_types_ Decoder_ctor !! xff = None /\
  decode Decoder_ctor [x01; xff; x00] = Some (Unexpected UnkwownDataType).
Proof.
  split; [constructor|].
  do 3 (split; [reflexivity|]).
  apply (unknown_type_needs_value_byte Decoder_ctor [x01; xff; x00] 0 ∅ x01 xff);
    [constructor|reflexivity|reflexivity|reflexivity|simpl; lia].
Defined.

Lemma decode_succeeds_iff_partition_witness :
  registry_total Decoder_ctor /\
  widths_fit Decoder_ctor /\
  [x01; x67; x01; x90] <> [] /\
  ((exists j, decode Decoder_ctor [x01; x67; x01; x90] = Some (Value j))
   <-> exists recs, partitions Decoder_ctor [x01; x67; x01; x90] recs) /\
  (forall j, decode Decoder_ctor [x01; x67; x01; x90] = Some (Value j) ->
     exists recs m,
       partitions Decoder_ctor [x01; x67; x01; x90] recs /\
       sum_list (map (fun r => 2 + byte_width Decoder_ctor r)%nat recs)
         = length [x01; x67; x01; x90] /\
       j = JObject m /\
       forall key v, m !! key = Some v <->
         exists i, last_stored Decoder_ctor recs key v i) /\
  ((~ exists recs, partitions Decoder_ctor [x01; x67; x01; x90] recs) ->
   exists e, decode Decoder_ctor [x01; x67; x01; x90] = Some (Unexpected e)).
Proof.
  split; [exact registry_total_Decoder_ctor|].
  split; [exact widths_fit_Decoder_ctor|].
  split; [discriminate|].
  apply decode_succeeds_iff_partition;
    [exact registry_total_Decoder_ctor|exact widths_fit_Decoder_ctor
    |discriminate].
Defined.

Lemma bad_payload_format_cases_witness :
  decode Decoder_ctor [x01] = Some (Unexpected BadPayloadFormat) /\
  decode Decoder_ctor [x01; x67; x01] = Some (Unexpected BadPayloadFormat) /\
  decode Decoder_ctor [x01; x67; x01; x10; x02]
  = Some (Unexpected BadPayloadFormat).
Proof.
  destruct (bad_payload_format_cases Decoder_ctor) as (Ha & Hb & Hc).
  split; [apply Ha|split].
  - apply (Hb [x01; x67; x01] 0%nat ∅ x01 x67
              (standard_data_type x67 "Temperature" 2));
      [constructor|reflexivity|reflexivity|reflexivity
      |unfold PTRDIFF_MAX; simpl; lia|simpl; lia].
  - apply (Hc [x01; x67; x01; x10; x02] 4%nat
              (<["Temperature_1"%string := JFloat (272 / 10)%float]> ∅));
      [|simpl; lia|simpl; lia].
    apply (scan_iter _ _ 0%nat ∅); [apply scan_begin|simpl; lia|].
    vm_compute. reflexivity.
Defined.

Lemma duplicate_key_later_wins_witness :
  let r1 := mkTLV x01 x67 [x01; x90] in
  let r2 := mkTLV x01 x67 [xff; x9c] in
  let dt := standard_data_type x67 "Temperature" 2 in
  Forall (decodable_record Decoder_ctor) [r1; r2] /\
  data_types_ Decoder_ctor !! x67 = Some dt /\
  decode_value dt x67 [xff; x9c] = Some (Some (JFloat (-10)%float)) /\
  exists m,
    decode Decoder_ctor [x01; x67; x01; x90; x01; x67; xff; x9c]
    = Some (Value (JObject m)) /\
    m !! "Temperature_1"%string = Some (JFloat (-10)%float) /\
    m = {[ "Temperature_1"%string := JFloat (-10)%float ]}.
Proof.
  intros r1 r2 dt.
  assert (Hrecs : Forall (decodable_record Decoder_ctor) [r1; r2]).
  { repeat constructor; apply temperature_record_decodable; reflexivity. }
  split; [exact Hrecs|]. split; [reflexivity|]. split; [reflexivity|].
  destruct (duplicate_key_later_wins Decoder_ctor [] [] [] r1 r2 dt dt
              (JFloat (-10)%float))
    as (m & Hm & Hkey & Honly);
    [exact Hrecs|reflexivity|reflexivity|reflexivity|reflexivity|reflexivity
    |constructor|].
  exists m. split; [exact Hm|]. split; [exact Hkey|].
  apply Honly; reflexivity.
Defined.

Lemma add_data_type_first_wins_witness :
  let ctor := fun id nm sz => mkDataType id nm sz false (fun _ => None) in
  is_Some (data_types_ Decoder_ctor !! x67) /\
  add_data_type ctor Decoder_ctor x67 "Thermometer" 4 = Decoder_ctor /\
  add_data_type ctor (add_data_type ctor Decoder_ctor x10 "Counter" 4)
                x10 "Clock" 8
  = add_data_type ctor Decoder_ctor x10 "Counter" 4.
Proof.
  intros ctor.
  assert (Hreg : is_Some (data_types_ Decoder_ctor !! x67))
    by (eexists; reflexivity).
  split; [exact Hreg|]. split.
  - apply (proj1 (add_data_type_first_wins ctor Decoder_ctor x67
                    "Thermometer" "Thermometer" 4 4)), Hreg.
  - apply (proj2 (add_data_type_first_wins ctor Decoder_ctor x10
                    "Counter" "Clock" 4 8)).
Defined.

(** * Further properties *)

(** ** Integer helpers on arbitrary spans *)

Lemma u8_inj (a b : byte) : u8 a = u8 b -> a = b.
Proof. unfold u8. intros H. apply byte_to_N_inj. lia. Qed.

Lemma bytes_to_uint16_prefix (b0 b1 : byte) (rest : list byte) :
  bytes_to_uint16 (b0 :: b1 :: rest) = Some (be_unsigned [b0; b1]).
Proof. exact (bytes_to_uint16_be b0 b1). Qed.

Lemma bytes_to_uint24_prefix (b0 b1 b2 : byte) (rest : list byte) :
  bytes_to_uint24 (b0 :: b1 :: b2 :: rest) = Some (be_unsigned [b0; b1; b2]).
Proof. exact (bytes_to_uint24_be b0 b1 b2). Qed.

Lemma be_unsigned_2_eq (b0 b1 : byte) :
  be_unsigned [b0; b1] = u8 b0 * 256 + u8 b1.
Proof. unfold be_unsigned. simpl. lia. Qed.

Lemma be_unsigned_3_eq (b0 b1 b2 : byte) :
  be_unsigned [b0; b1; b2] = u8 b0 * 65536 + u8 b1 * 256 + u8 b2.
Proof. unfold be_unsigned. simpl. lia. Qed.

(** X1. [bytes_to_uint16] throws exactly on spans shorter than two bytes;
    otherwise it reads the first two bytes only and returns their
    big-endian value, which lies in [0, 65535]. *)
Theorem bytes_to_uint16_total_on_two (data_span : list byte) :
  (bytes_to_uint16 data_span = None <-> (length data_span < 2)%nat) /\
  (forall b0 b1 rest,
      bytes_to_uint16 (b0 :: b1 :: rest) = Some (u8 b0 * 256 + u8 b1) /\
      0 <= u8 b0 * 256 + u8 b1 <= 65535).
Proof.
  split.
  - destruct data_span as [|b0 [|b1 rest]].
    + split; [simpl; lia|reflexivity].
    + split; [simpl; lia|reflexivity].
    + rewrite bytes_to_uint16_prefix. split; [discriminate|simpl; lia].
  - intros b0 b1 rest.
    rewrite bytes_to_uint16_prefix, be_unsigned_2_eq.
    pose proof (u8_range b0). pose proof (u8_range b1).
    split; [reflexivity|lia].
Qed.

(** X2. [bytes_to_uint24] throws exactly on spans shorter than three
    bytes; otherwise it reads the first three bytes only and returns their
    big-endian value, which lies in [0, 2^24 - 1]. *)
Theorem bytes_to_uint24_total_on_three (data_span : list byte) :
  (bytes_to_uint24 data_span = None <-> (length data_span < 3)%nat) /\
  (forall b0 b1 b2 rest,
      bytes_to_uint24 (b0 :: b1 :: b2 :: rest)
      = Some (u8 b0 * 65536 + u8 b1 * 256 + u8 b2) /\
      0 <= u8 b0 * 65536 + u8 b1 * 256 + u8 b2 <= 16777215).
Proof.
  split.
  - destruct data_span as [|b0 [|b1 [|b2 rest]]].
    + split; [simpl; lia|reflexivity].
    + split; [simpl; lia|reflexivity].
    + split; [simpl; lia|reflexivity].
    + rewrite bytes_to_uint24_prefix. split; [discriminate|simpl; lia].
  - intros b0 b1 b2 rest.
    rewrite bytes_to_uint24_prefix, be_unsigned_3_eq.
    pose proof (u8_range b0). pose proof (u8_range b1). pose proof (u8_range b2).
    split; [reflexivity|lia].
Qed.

Lemma twos_complement_16 (u : Z) :
  0 <= u < 65536 ->
  - 32768 <= twos_complement 16 u <= 32767 /\
  twos_complement 16 u mod 65536 = u.
Proof.
  intros H. unfold twos_complement.
  change (2 ^ (16 - 1) - 1) with 32767. change (2 ^ 16) with 65536.
  destruct (Z.leb_spec u 32767).
  - rewrite Z.mod_small by lia. lia.
  - split; [lia|].
    replace (u - 65536) with (u + (-1) * 65536) by lia.
    rewrite Z_mod_plus_full, Z.mod_small by lia. reflexivity.
Qed.

Lemma twos_complement_24 (u : Z) :
  0 <= u < 16777216 ->
  - 8388608 <= twos_complement 24 u <= 8388607 /\
  twos_complement 24 u mod 16777216 = u.
Proof.
  intros H. unfold twos_complement.
  change (2 ^ (24 - 1) - 1) with 8388607. change (2 ^ 24) with 16777216.
  destruct (Z.leb_spec u 8388607).
  - rewrite Z.mod_small by lia. lia.
  - split; [lia|].
    replace (u - 16777216) with (u + (-1) * 16777216) by lia.
    rewrite Z_mod_plus_full, Z.mod_small by lia. reflexivity.
Qed.

Lemma be_signed16_facts (b0 b1 : byte) :
  - 32768 <= be_signed16 b0 b1 <= 32767 /\
  be_signed16 b0 b1 mod 65536 = u8 b0 * 256 + u8 b1.
Proof.
  unfold be_signed16. rewrite be_unsigned_2_eq.
  pose proof (u8_range b0). pose proof (u8_range b1).
  apply twos_complement_16. lia.
Qed.

Lemma be_signed24_facts (b0 b1 b2 : byte) :
  - 8388608 <= be_signed24 b0 b1 b2 <= 8388607 /\
  be_signed24 b0 b1 b2 mod 16777216 = u8 b0 * 65536 + u8 b1 * 256 + u8 b2.
Proof.
  unfold be_signed24. rewrite be_unsigned_3_eq.
  pose proof (u8_range b0). pose proof (u8_range b1). pose proof (u8_range b2).
  apply twos_complement_24. lia.
Qed.

(** X3. On two bytes [bytes_to_int16] returns a value of the [int16_t]
    range whose residue modulo 2^16 is the big-endian unsigned value; so
    it loses no information: equal results come from equal bytes. *)
Theorem bytes_to_int16_range_injective (b0 b1 c0 c1 : byte) :
  (exists v,
      bytes_to_int16 [b0; b1] = Some v /\
      - 32768 <= v <= 32767 /\
      v mod 65536 = u8 b0 * 256 + u8 b1) /\
  (bytes_to_int16 [b0; b1] = bytes_to_int16 [c0; c1] -> b0 = c0 /\ b1 = c1).
Proof.
  split.
  - exists (be_signed16 b0 b1). split; [apply bytes_to_int16_signed|].
    apply be_signed16_facts.
  - rewrite !bytes_to_int16_signed. intros H. injection H as H.
    destruct (be_signed16_facts b0 b1) as [_ Hb].
    destruct (be_signed16_facts c0 c1) as [_ Hc].
    rewrite H in Hb. rewrite Hb in Hc.
    pose proof (u8_range b0). pose proof (u8_range b1).
    pose proof (u8_range c0). pose proof (u8_range c1).
    split; apply u8_inj; lia.
Qed.

(** X4. On three bytes [bytes_to_int24] returns a value of the signed
    24-bit range whose residue modulo 2^24 is the big-endian unsigned
    value; equal results come from equal bytes. *)
Theorem bytes_to_int24_range_injective (b0 b1 b2 c0 c1 c2 : byte) :
  (exists v,
      bytes_to_int24 [b0; b1; b2] = Some v /\
      - 8388608 <= v <= 8388607 /\
      v mod 16777216 = u8 b0 * 65536 + u8 b1 * 256 + u8 b2) /\
  (bytes_to_int24 [b0; b1; b2] = bytes_to_int24 [c0; c1; c2] ->
   b0 = c0 /\ b1 = c1 /\ b2 = c2).
Proof.
  split.
  - exists (be_signed24 b0 b1 b2). split; [apply bytes_to_int24_signed|].
    apply be_signed24_facts.
  - rewrite !bytes_to_int24_signed. intros H. injection H as H.
    destruct (be_signed24_facts b0 b1 b2) as [_ Hb].
    destruct (be_signed24_facts c0 c1 c2) as [_ Hc].
    rewrite H in Hb. rewrite Hb in Hc.
    pose proof (u8_range b0). pose proof (u8_range b1). pose proof (u8_range b2).
    pose proof (u8_range c0). pose proof (u8_range c1). pose proof (u8_range c2).
    repeat split; apply u8_inj; lia.
Qed.

(** ** Single records of the built-in types *)

Lemma decode_one_record d channel id data_type data_span v :
  data_types_ d !! id = Some data_type ->
  length data_span = size data_type ->
  (0 < size data_type)%nat ->
  decode_value data_type id data_span = Some (Some v) ->
  decode d (channel :: id :: data_span)
  = Some (Value (JObject {[ json_key data_type channel := v ]})).
Proof.
  intros Hdt Hlen Hpos Hv.
  replace (channel :: id :: data_span)
    with (concat (map tlv_bytes [mkTLV channel id data_span]))
    by (simpl; rewrite app_nil_r; reflexivity).
  rewrite (decode_records d [mkTLV channel id data_span]).
  - simpl. unfold store, tlv_entry. simpl. rewrite Hdt. simpl. rewrite Hv.
    rewrite insert_empty. reflexivity.
  - discriminate.
  - repeat constructor. exists data_type, v. auto.
Qed.

(** X5. One-byte built-in records.  For the built-in registry, extended
    or not by [add_data_type] calls, [[channel; 0x00; b]],
    [[channel; 0x01; b]] and [[channel; 0x66; b]] decode to the single key
    ["Digital Input_<channel>"], ["Digital Output_<channel>"],
    ["Presence_<channel>"] holding the raw byte as an unsigned number. *)
Theorem decode_one_byte_records
    (DataType_ctor : byte -> string -> nat -> DataType)
    (calls : list (byte * string * nat)) (channel b : byte) :
  let d := add_data_types DataType_ctor Decoder_ctor calls in
  decode d [channel; x00; b]
  = Some (Value (JObject
      {[ "Digital Input_" +:+ to_string channel := JUnsigned (u8 b) ]})) /\
  decode d [channel; x01; b]
  = Some (Value (JObject
      {[ "Digital Output_" +:+ to_string channel := JUnsigned (u8 b) ]})) /\
  decode d [channel; x66; b]
  = Some (Value (JObject
      {[ "Presence_" +:+ to_string channel := JUnsigned (u8 b) ]})).
Proof.
  intros d. repeat split.
  - apply (decode_one_record d channel x00
             (standard_data_type x00 "Digital Input" 1) [b]);
      [apply add_data_types_lookup_Some| | |]; (reflexivity || (simpl; lia)).
  - apply (decode_one_record d channel x01
             (standard_data_type x01 "Digital Output" 1) [b]);
      [apply add_data_types_lookup_Some| | |]; (reflexivity || (simpl; lia)).
  - apply (decode_one_record d channel x66
             (standard_data_type x66 "Presence" 1) [b]);
      [apply add_data_types_lookup_Some| | |]; (reflexivity || (simpl; lia)).
Qed.

Lemma decode_value_analog_input b0 b1 :
  decode_value (standard_data_type x02 "Analog Input" 2) x02 [b0; b1]
  = Some (Some (JFloat (double_of_int (be_signed16 b0 b1) / 100)%float)).
Proof.
  change (decode_value _ _ _)
    with (Some (JFloat <$> decode_analog_input [b0; b1])).
  unfold decode_analog_input.
  rewrite bytes_to_int16_signed. reflexivity.
Qed.

Lemma decode_value_analog_output b0 b1 :
  decode_value (standard_data_type x03 "Analog Output" 2) x03 [b0; b1]
  = Some (Some (JFloat (double_of_int (be_signed16 b0 b1) / 100)%float)).
Proof.
  change (decode_value _ _ _)
    with (Some (JFloat <$> decode_analog_output [b0; b1])).
  unfold decode_analog_output.
  rewrite bytes_to_int16_signed. reflexivity.
Qed.

Lemma decode_value_luminosity b0 b1 :
  decode_value (standard_data_type x65 "Luminosity" 2) x65 [b0; b1]
  = Some (Some (JUnsigned (u8 b0 * 256 + u8 b1))).
Proof.
  change (decode_value _ _ _)
    with (Some (JUnsigned <$> decode_luminosity [b0; b1])).
  unfold decode_luminosity.
  rewrite bytes_to_uint16_be, be_unsigned_2_eq. reflexivity.
Qed.

Lemma decode_value_humidity b0 b1 :
  decode_value (standard_data_type x68 "Humidity" 2) x68 [b0; b1]
  = Some (Some (JFloat (double_of_int (u8 b0 * 256 + u8 b1) / 10)%float)).
Proof.
  change (decode_value _ _ _)
    with (Some (JFloat <$> decode_humidity [b0; b1])).
  unfold decode_humidity.
  rewrite bytes_to_uint16_be, be_unsigned_2_eq. reflexivity.
Qed.

(** X6. Two-byte built-in records.  For the built-in registry, extended
    or not, [[channel; id; b0; b1]] decodes to a single key: for 0x02 and
    0x03 ["Analog Input_<channel>"] and ["Analog Output_<channel>"] with
    the signed big-endian value divided by 100, for 0x65
    ["Luminosity_<channel>"] with the unsigned big-endian value as it is,
    for 0x68 ["Humidity_<channel>"] with the unsigned value divided by
    10. *)
Theorem decode_two_byte_records
    (DataType_ctor : byte -> string -> nat -> DataType)
    (calls : list (byte * string * nat)) (channel b0 b1 : byte) :
  let d := add_data_types DataType_ctor Decoder_ctor calls in
  decode d [channel; x02; b0; b1]
  = Some (Value (JObject
      {[ "Analog Input_" +:+ to_string channel
         := JFloat (double_of_int (be_signed16 b0 b1) / 100)%float ]})) /\
  decode d [channel; x03; b0; b1]
  = Some (Value (JObject
      {[ "Analog Output_" +:+ to_string channel
         := JFloat (double_of_int (be_signed16 b0 b1) / 100)%float ]})) /\
  decode d [channel; x65; b0; b1]
  = Some (Value (JObject
      {[ "Luminosity_" +:+ to_string channel
         := JUnsigned (u8 b0 * 256 + u8 b1) ]})) /\
  decode d [channel; x68; b0; b1]
  = Some (Value (JObject
      {[ "Humidity_" +:+ to_string channel
         := JFloat (double_of_int (u8 b0 * 256 + u8 b1) / 10)%float ]})).
Proof.
  intros d. repeat split.
  - apply (decode_one_record d channel x02
             (standard_data_type x02 "Analog Input" 2) [b0; b1]);
      [apply add_data_types_lookup_Some; reflexivity|reflexivity|simpl; lia|].
    apply decode_value_analog_input.
  - apply (decode_one_record d channel x03
             (standard_data_type x03 "Analog Output" 2) [b0; b1]);
      [apply add_data_types_lookup_Some; reflexivity|reflexivity|simpl; lia|].
    apply decode_value_analog_output.
  - apply (decode_one_record d channel x65
             (standard_data_type x65 "Luminosity" 2) [b0; b1]);
      [apply add_data_types_lookup_Some; reflexivity|reflexivity|simpl; lia|].
    apply decode_value_luminosity.
  - apply (decode_one_record d channel x68
             (standard_data_type x68 "Humidity" 2) [b0; b1]);
      [apply add_data_types_lookup_Some; reflexivity|reflexivity|simpl; lia|].
    apply decode_value_humidity.
Qed.

(** X7. [decode_accelerometer] on six bytes returns an object with exactly
    the fields [x], [y], [z]: the big-endian signed 16-bit values of bytes
    0-1, 2-3 and 4-5, each divided by 1000; [decode_gyrometer] and
    [decode_barometer] on two bytes return the signed value divided by
    100 and the unsigned value divided by 10. *)
Theorem decode_accelerometer_fields (b0 b1 b2 b3 b4 b5 : byte) :
  decode_accelerometer [b0; b1; b2; b3; b4; b5]
  = Some (JObject (list_to_map
      [ ("x"%string, JFloat (double_of_int (be_signed16 b0 b1) / 1000)%float);
        ("y"%string, JFloat (double_of_int (be_signed16 b2 b3) / 1000)%float);
        ("z"%string, JFloat (double_of_int (be_signed16 b4 b5) / 1000)%float)
      ])) /\
  decode_gyrometer [b0; b1]
  = Some (double_of_int (be_signed16 b0 b1) / 100)%float /\
  decode_barometer [b0; b1]
  = Some (double_of_int (u8 b0 * 256 + u8 b1) / 10)%float.
Proof.
  repeat split.
  - unfold decode_accelerometer, subspan. simpl.
    rewrite !bytes_to_int16_signed. reflexivity.
  - unfold decode_gyrometer. rewrite bytes_to_int16_signed. reflexivity.
  - unfold decode_barometer.
    rewrite bytes_to_uint16_be, be_unsigned_2_eq. reflexivity.
Qed.

(** ** The registry under [add_data_type] *)

Lemma Decoder_eq (d1 d2 : Decoder) :
  (forall id, data_types_ d1 !! id = data_types_ d2 !! id) -> d1 = d2.
Proof.
  destruct d1 as [m1], d2 as [m2]. simpl. intros H.
  f_equal. apply map_eq, H.
Qed.

Section RegistryLookups.
Variable DataType_ctor : byte -> string -> nat -> DataType.

Lemma add_data_type_lookup d id nm sz id' :
  data_types_ (add_data_type DataType_ctor d id nm sz) !! id'
  = if decide (id' = id)
    then Some (default (DataType_ctor id nm sz) (data_types_ d !! id))
    else data_types_ d !! id'.
Proof.
  destruct (data_types_ d !! id) as [dt|] eqn:Hid.
  - rewrite add_data_type_existing by eauto.
    destruct (decide (id' = id)) as [->|]; [exact Hid|reflexivity].
  - rewrite add_data_type_fresh by assumption.
    destruct (decide (id' = id)) as [->|Hne].
    + apply lookup_insert_eq.
    + apply lookup_insert_ne. congruence.
Qed.

Lemma add_data_types_subseteq calls : forall d,
  data_types_ d ⊆ data_types_ (add_data_types DataType_ctor d calls).
Proof.
  intros d. apply map_subseteq_spec. intros id dt.
  apply add_data_types_lookup_Some.
Qed.
End RegistryLookups.

(** X8. The registry after a sequence of [add_data_type] calls: an
    identifier that had an entry keeps it; an identifier without one gets
    the descriptor built by the first call of the sequence that names it;
    an identifier no call names stays unregistered. *)
Theorem add_data_types_lookup
    (DataType_ctor : byte -> string -> nat -> DataType)
    (calls : list (byte * string * nat)) (d : Decoder) (id : byte) :
  data_types_ (add_data_types DataType_ctor d calls) !! id
  = match data_types_ d !! id with
    | Some data_type => Some data_type
    | None =>
      (fun c => DataType_ctor c.1.1 c.1.2 c.2)
        <$> head (filter (fun c => c.1.1 = id) calls)
    end.
Proof.
  revert d. induction calls as [|[[id0 nm] sz] calls IH]; intros d.
  - simpl. destruct (data_types_ d !! id); reflexivity.
  - change (add_data_types DataType_ctor d ((id0, nm, sz) :: calls))
      with (add_data_types DataType_ctor
              (add_data_type DataType_ctor d id0 nm sz) calls).
    rewrite IH, add_data_type_lookup, filter_cons. simpl.
    destruct (decide (id = id0)) as [->|Hne].
    + rewrite decide_True by reflexivity.
      destruct (data_types_ d !! id0); reflexivity.
    + rewrite decide_False by congruence. reflexivity.
Qed.

(** X9. Registrations of two different identifiers commute. *)
Theorem add_data_type_commute
    (DataType_ctor : byte -> string -> nat -> DataType) (d : Decoder)
    (id1 id2 : byte) (nm1 nm2 : string) (sz1 sz2 : nat) :
  id1 <> id2 ->
  add_data_type DataType_ctor
    (add_data_type DataType_ctor d id1 nm1 sz1) id2 nm2 sz2
  = add_data_type DataType_ctor
      (add_data_type DataType_ctor d id2 nm2 sz2) id1 nm1 sz1.
Proof.
  intros Hne. apply Decoder_eq. intros i.
  rewrite !add_data_type_lookup.
  destruct (decide (i = id2)) as [E2|N2], (decide (i = id1)) as [E1|N1];
    try congruence; try reflexivity.
  - rewrite decide_False by congruence. reflexivity.
  - rewrite decide_False by congruence. reflexivity.
Qed.

Lemma add_data_type_commute_witness :
  let ctor := fun id nm sz => mkDataType id nm sz false (fun _ => None) in
  x10 <> x11 /\
  add_data_type ctor (add_data_type ctor Decoder_ctor x10 "Counter" 4)
                x11 "Clock" 8
  = add_data_type ctor (add_data_type ctor Decoder_ctor x11 "Clock" 8)
                  x10 "Counter" 4.
Proof.
  intros ctor.
  assert (Hne : x10 <> x11) by discriminate.
  split; [exact Hne|].
  apply (add_data_type_commute ctor Decoder_ctor x10 x11 "Counter" "Clock" 4 8 Hne).
Defined.

(** ** Extending the registry *)

Lemma loop_body_mono d d' payload ci json :
  data_types_ d ⊆ data_types_ d' ->
  loop_body d payload ci json <> Return (Unexpected UnkwownDataType) ->
  loop_body d' payload ci json = loop_body d payload ci json.
Proof.
  intros Hsub. unfold loop_body.
  destruct (payload !! ci); [|reflexivity].
  destruct (payload !! S ci) as [id|]; [|reflexivity].
  destruct (data_types_ d !! id) as [dt|] eqn:Hdt; [|congruence].
  rewrite (lookup_weaken _ _ _ _ Hdt Hsub). reflexivity.
Qed.

Lemma decode_loop_mono d d' payload :
  data_types_ d ⊆ data_types_ d' ->
  forall ci json,
    decode_loop d payload ci json <> Some (Unexpected UnkwownDataType) ->
    decode_loop d' payload ci json = decode_loop d payload ci json.
Proof.
  intros Hsub.
  apply (decode_loop_cases d payload
           (fun ci json res => res <> Some (Unexpected UnkwownDataType) ->
                               decode_loop d' payload ci json = res)).
  - intros ci json Hstop _. apply loop_stops, Hstop.
  - intros ci json ci' json' Hguard Hbody IH Hres.
    rewrite decode_loop_eq. apply Nat.ltb_lt in Hguard. rewrite Hguard.
    rewrite (loop_body_mono d d') by (assumption || congruence).
    rewrite Hbody. apply IH, Hres.
  - intros ci json r Hguard Hbody Hres.
    rewrite decode_loop_eq. apply Nat.ltb_lt in Hguard. rewrite Hguard.
    rewrite (loop_body_mono d d') by (assumption || congruence).
    rewrite Hbody. reflexivity.
  - intros ci json Hguard Hbody _.
    rewrite decode_loop_eq. apply Nat.ltb_lt in Hguard. rewrite Hguard.
    rewrite (loop_body_mono d d') by (assumption || congruence).
    rewrite Hbody. reflexivity.
Qed.

(** X10. Registering further types never changes what [decode] answers
    for a payload, unless the answer was [UnkwownDataType]: a success
    keeps its result, [BadPayloadFormat] and [PayloadEmpty] stay, and so
    does an exception. *)
Theorem decode_after_registrations
    (DataType_ctor : byte -> string -> nat -> DataType)
    (calls : list (byte * string * nat)) (d : Decoder)
    (encoded_payload : list byte) :
  decode d encoded_payload <> Some (Unexpected UnkwownDataType) ->
  decode (add_data_types DataType_ctor d calls) encoded_payload
  = decode d encoded_payload.
Proof.
  unfold decode. destruct (length encoded_payload =? 0)%nat; [reflexivity|].
  apply decode_loop_mono, add_data_types_subseteq.
Qed.

Lemma decode_after_registrations_witness :
  let ctor := fun id nm sz => mkDataType id nm sz false (fun _ => None) in
  let calls := [(x10, "Counter"%string, 4%nat); (x67, "Thermometer"%string, 1%nat)] in
  decode Decoder_ctor [x01; x67; x01; x90]
    <> Some (Unexpected UnkwownDataType) /\
  decode (add_data_types ctor Decoder_ctor calls) [x01; x67; x01; x90]
  = decode Decoder_ctor [x01; x67; x01; x90].
Proof.
  intros ctor calls.
  assert (H : decode Decoder_ctor [x01; x67; x01; x90]
              <> Some (Unexpected UnkwownDataType)) by discriminate.
  split; [exact H|].
  apply (decode_after_registrations ctor calls Decoder_ctor _ H).
Defined.

(** ** Shape of the answers *)

Lemma decode_loop_shape d payload ci json r :
  decode_loop d payload ci json = Some r ->
  (exists m, r = Value (JObject m)) \/
  r = Unexpected UnkwownDataType \/ r = Unexpected BadPayloadFormat.
Proof.
  revert ci json r.
  apply (decode_loop_cases d payload
           (fun _ _ res => forall r, res = Some r ->
              (exists m, r = Value (JObject m)) \/
              r = Unexpected UnkwownDataType \/
              r = Unexpected BadPayloadFormat)).
  - intros ci json _ r H.
    destruct (ci <? length payload)%nat; inversion H; eauto.
  - auto.
  - intros ci json r0 _ Hbody r H. inversion H; subst r0.
    right. apply loop_body_Return in Hbody. exact Hbody.
  - discriminate.
Qed.

(** X11. Outcomes of [decode].  Whatever the registry, a returned result
    is an object or one of the errors [PayloadEmpty], [UnkwownDataType],
    [BadPayloadFormat] (never [None], never a non-object value); and when
    every registered width fits [std::ptrdiff_t] and every registered
    decoder yields a value on slices of its width, no exception escapes:
    [decode] returns. *)
Theorem decode_outcomes (d : Decoder) (encoded_payload : list byte) :
  (forall r, decode d encoded_payload = Some r ->
     (exists m, r = Value (JObject m)) \/
     r = Unexpected PayloadEmpty \/
     r = Unexpected UnkwownDataType \/
     r = Unexpected BadPayloadFormat) /\
  (widths_fit d -> decoders_yield d ->
   exists r, decode d encoded_payload = Some r).
Proof.
  split.
  - intros r. unfold decode.
    destruct (length encoded_payload =? 0)%nat.
    + intros H. inversion H. auto.
    + intros H. apply decode_loop_shape in H. tauto.
  - apply decode_returns.
Qed.

Lemma decode_outcomes_witness :
  widths_fit Decoder_ctor /\
  decoders_yield Decoder_ctor /\
  exists r, decode Decoder_ctor [x01; x88; x00] = Some r /\
    ((exists m, r = Value (JObject m)) \/
     r = Unexpected PayloadEmpty \/
     r = Unexpected UnkwownDataType \/
     r = Unexpected BadPayloadFormat).
Proof.
  assert (Hy : decoders_yield Decoder_ctor)
    by exact (registry_total_yield _ registry_total_Decoder_ctor).
  split; [exact widths_fit_Decoder_ctor|]. split; [exact Hy|].
  destruct (decode_outcomes Decoder_ctor [x01; x88; x00]) as [Hshape Hret].
  destruct (Hret widths_fit_Decoder_ctor Hy) as [r Hr].
  exists r. split; [exact Hr|]. apply Hshape, Hr.
Defined.

Lemma size_fold_store d recs : forall json,
  (base.size (fold_left (store d) recs json) <= base.size json + length recs)%nat.
Proof.
  induction recs as [|r recs IH]; intros json; simpl; [lia|].
  specialize (IH (store d json r)).
  assert (base.size (store d json r) <= S (base.size json))%nat; [|lia].
  unfold store. destruct (tlv_entry d r) as [[k v]|]; [|lia].
  rewrite map_size_insert. destruct (json !! k); simpl; lia.
Qed.

Lemma length_concat_tlv_ge (recs : list TLV) :
  (2 * length recs <= length (concat (map tlv_bytes recs)))%nat.
Proof.
  induction recs as [|r recs IH]; simpl; [lia|].
  rewrite length_app. lia.
Qed.

Lemma fold_store_nonempty d recs json :
  recs <> [] -> Forall (fun r => is_Some (tlv_entry d r)) recs ->
  fold_left (store d) recs json <> ∅.
Proof.
  intros Hne Hent.
  destruct (exists_last Hne) as (l & r & ->).
  rewrite fold_left_app. simpl.
  apply Forall_app in Hent. destruct Hent as [_ Hr].
  apply Forall_inv in Hr. destruct Hr as [[k v] Hr].
  unfold store at 1. rewrite Hr. apply insert_non_empty.
Qed.

(** X13. Shape of a success.  For a registry whose widths fit
    [std::ptrdiff_t] (a larger width is cast to a negative step of the
    cursor): when [decode] succeeds the result is an object with at least
    one key, the buffer has at least three bytes, and there are at most
    half as many keys as bytes (every record takes a channel byte and a
    type byte). *)
Theorem decode_success_shape (d : Decoder) (encoded_payload : list byte)
    (j : Json) :
  widths_fit d ->
  decode d encoded_payload = Some (Value j) ->
  exists m,
    j = JObject m /\ m <> ∅ /\
    (2 * base.size m <= length encoded_payload)%nat /\
    (3 <= length encoded_payload)%nat.
Proof.
  intros _ H.
  destruct encoded_payload as [|b0 payload] eqn:Hp; [discriminate|].
  rewrite <- Hp in *. assert (Hne : encoded_payload <> []) by congruence.
  rewrite decode_nonempty in H by assumption.
  assert (Hlen : (3 <= length encoded_payload)%nat).
  { destruct (Nat.le_gt_cases 3 (length encoded_payload)) as [|Hlt]; [assumption|].
    rewrite loop_stops in H by (simpl; lia).
    assert (0 < length encoded_payload)%nat as Hpos
      by (rewrite Hp; simpl; lia).
    apply Nat.ltb_lt in Hpos. rewrite Hpos in H. discriminate. }
  apply decode_loop_Value_inv in H.
  destruct H as (recs & Hdrop & _ & Hent & ->). rewrite drop_0 in Hdrop.
  eexists. split; [reflexivity|]. split; [|split; [|exact Hlen]].
  - apply fold_store_nonempty; [|exact Hent].
    intros ->. apply Hne. exact Hdrop.
  - pose proof (size_fold_store d recs ∅) as Hsz.
    rewrite map_size_empty in Hsz.
    pose proof (length_concat_tlv_ge recs) as Hge.
    rewrite <- Hdrop in Hge. lia.
Qed.

Lemma decode_success_shape_witness :
  widths_fit Decoder_ctor /\
  decode Decoder_ctor [x01; x67; x01; x90]
  = Some (Value (JObject {[ "Temperature_1"%string := JFloat 40%float ]})) /\
  exists m,
    JObject {[ "Temperature_1"%string := JFloat 40%float ]} = JObject m /\
    m <> ∅ /\
    (2 * base.size m <= length [x01; x67; x01; x90])%nat /\
    (3 <= length [x01; x67; x01; x90])%nat.
Proof.
  assert (H : decode Decoder_ctor [x01; x67; x01; x90]
              = Some (Value (JObject
                  {[ "Temperature_1"%string := JFloat 40%float ]})))
    by reflexivity.
  split; [exact widths_fit_Decoder_ctor|]. split; [exact H|].
  apply (decode_success_shape Decoder_ctor [x01; x67; x01; x90] _
           widths_fit_Decoder_ctor H).
Defined.

(** X19. Invariant of the scan.  For a registry whose widths fit
    [std::ptrdiff_t] (a larger width is cast to a negative step of the
    cursor): whenever the loop head is reached the cursor is within the
    buffer, it is 0 or at least 2 (each iteration consumes at least the
    two header bytes), and the object holds at most one key per two bytes
    consumed. *)
Theorem scan_invariant (d : Decoder) (encoded_payload : list byte)
    (current_index : nat) (decoded_json : gmap string Json) :
  widths_fit d ->
  scan_reaches d encoded_payload current_index decoded_json ->
  (current_index <= length encoded_payload)%nat /\
  (current_index = 0%nat \/ 2 <= current_index)%nat /\
  (2 * base.size decoded_json <= current_index)%nat.
Proof.
  intros _.
  induction 1 as [|ci json ci' json' _ IH Hguard Hbody].
  - rewrite map_size_empty. lia.
  - destruct IH as (_ & _ & Hsize).
    pose proof (loop_body_advance _ _ _ _ _ _ Hbody) as Hadv.
    destruct (loop_body_Continue_inv _ _ _ _ _ _ Hbody)
      as (r & _ & _ & _ & ->).
    pose proof (size_fold_store d [r] json) as Hst. simpl in Hst. lia.
Qed.

Lemma scan_invariant_witness :
  widths_fit Decoder_ctor /\
  scan_reaches Decoder_ctor [x01; x67; x01; x10; x02] 4
    (<["Temperature_1"%string := JFloat (272 / 10)%float]> ∅) /\
  (4 <= length [x01; x67; x01; x10; x02])%nat /\
  (4 = 0 \/ 2 <= 4)%nat /\
  (2 * base.size (<["Temperature_1"%string := JFloat (272 / 10)%float]>
               (∅ : gmap string Json)) <= 4)%nat.
Proof.
  assert (H : scan_reaches Decoder_ctor [x01; x67; x01; x10; x02] 4
                (<["Temperature_1"%string := JFloat (272 / 10)%float]> ∅)).
  { apply (scan_iter _ _ 0%nat ∅); [apply scan_begin|simpl; lia|].
    vm_compute. reflexivity. }
  split; [exact widths_fit_Decoder_ctor|]. split; [exact H|].
  apply (scan_invariant _ _ _ _ widths_fit_Decoder_ctor H).
Defined.

(** ** Appending bytes to a buffer *)

(** An iteration that starts inside [p1] and does not run out of bytes
    there is the same iteration in [p1 ++ p2]; for an iteration without
    defined result this needs [p1 ++ p2] to be a buffer, of at most
    [PTRDIFF_MAX] bytes. *)
Lemma loop_body_app_l d p1 p2 ci json :
  (ci + 2 <= length p1)%nat ->
  loop_body d p1 ci json <> Return (Unexpected BadPayloadFormat) ->
  loop_body d p1 ci json <> Throw \/
    Z.of_nat (length (p1 ++ p2)) <= PTRDIFF_MAX ->
  loop_body d (p1 ++ p2) ci json = loop_body d p1 ci json.
Proof.
  intros Hci Hnb Hnt.
  destruct (lookup_lt_is_Some_2 p1 ci) as [ch H0]; [lia|].
  destruct (lookup_lt_is_Some_2 p1 (S ci)) as [tid H1]; [lia|].
  rewrite (loop_body_header d p1 ci json ch tid) in * by assumption.
  rewrite (loop_body_header d (p1 ++ p2) ci json ch tid)
    by (rewrite lookup_app_l by lia; assumption).
  destruct (data_types_ d !! tid) as [dt|]; [|reflexivity].
  rewrite length_app in *.
  destruct (Nat.ltb_spec (length p1) (ci + 2 + size dt)) as [Hout|Hin].
  - destruct (Z.ltb_spec (Z.of_nat (length p1))
                (Z.of_nat (ci + 2) + to_ptrdiff (size dt))) as [|Hpass];
      [congruence|].
    destruct (Nat.ltb_spec (length p1 + length p2) (ci + 2 + size dt))
      as [Hout'|Hin'].
    + destruct (Z.ltb_spec (Z.of_nat (length p1 + length p2))
                  (Z.of_nat (ci + 2) + to_ptrdiff (size dt))); [lia|].
      reflexivity.
    + unfold decode_value.
      destruct (negb (standard dt)).
      * destruct Hnt as [Hnt|Hbound]; [congruence|].
        unfold PTRDIFF_MAX in Hbound.
        rewrite to_ptrdiff_small in Hpass by (unfold PTRDIFF_MAX; lia). lia.
      * destruct (switch_type_id tid []) as [o|] eqn:Hsw.
        -- destruct Hnt as [Hnt|Hbound]; [congruence|].
           unfold PTRDIFF_MAX in Hbound.
           rewrite to_ptrdiff_small in Hpass by (unfold PTRDIFF_MAX; lia). lia.
        -- rewrite (switch_type_id_label tid [] _ Hsw). reflexivity.
  - destruct (Nat.ltb_spec (length p1 + length p2) (ci + 2 + size dt));
      [lia|].
    rewrite drop_app_le by lia.
    rewrite take_app_le by (rewrite length_drop; lia).
    reflexivity.
Qed.

(** The iteration at offset [ci] of [p] is the one at offset
    [length pre + ci] of [pre ++ p]; entries accumulated before ([b])
    stay underneath. *)
Lemma loop_body_shift d pre p ci a b :
  loop_body d (pre ++ p) (length pre + ci) (a ∪ b)
  = match loop_body d p ci a with
    | Continue ci' a' => Continue (length pre + ci') (a' ∪ b)
    | Return r => Return r
    | Throw => Throw
    end.
Proof.
  assert (L0 : (pre ++ p) !! (length pre + ci)%nat = p !! ci).
  { rewrite lookup_app_r by lia. f_equal. lia. }
  assert (L1 : (pre ++ p) !! S (length pre + ci) = p !! S ci).
  { rewrite lookup_app_r by lia. f_equal. lia. }
  destruct (p !! ci) as [ch|] eqn:H0.
  2:{ rewrite !loop_body_no_header by auto. reflexivity. }
  destruct (p !! S ci) as [tid|] eqn:H1.
  2:{ rewrite !loop_body_no_header by auto. reflexivity. }
  rewrite (loop_body_header d (pre ++ p) _ _ ch tid L0 L1).
  rewrite (loop_body_header d p ci a ch tid H0 H1).
  destruct (data_types_ d !! tid) as [dt|]; [|reflexivity].
  rewrite length_app.
  replace (length pre + ci + 2)%nat with (length pre + (ci + 2))%nat by lia.
  rewrite drop_app_add.
  destruct (Nat.ltb_spec (length p) (ci + 2 + size dt)),
           (Nat.ltb_spec (length pre + length p)
                         (length pre + (ci + 2) + size dt));
    try lia.
  - destruct (Z.ltb_spec (Z.of_nat (length p))
                (Z.of_nat (ci + 2) + to_ptrdiff (size dt))),
             (Z.ltb_spec (Z.of_nat (length pre + length p))
                (Z.of_nat (length pre + (ci + 2)) + to_ptrdiff (size dt)));
      try lia; [reflexivity|].
    destruct (negb (standard dt)); [reflexivity|].
    destruct (switch_type_id tid []); reflexivity.
  - destruct (decode_value dt tid _) as [[v|]|]; try reflexivity.
    rewrite insert_union_l. f_equal. lia.
Qed.

Lemma decode_loop_shift d pre p b :
  forall ci a,
    decode_loop d (pre ++ p) (length pre + ci) (a ∪ b)
    = after_object b (decode_loop d p ci a).
Proof.
  apply (decode_loop_cases d p
           (fun ci a res =>
              decode_loop d (pre ++ p) (length pre + ci) (a ∪ b)
              = after_object b res)).
  - intros ci a Hstop.
    rewrite loop_stops by (rewrite length_app; lia).
    rewrite length_app.
    destruct (Nat.ltb_spec ci (length p)),
             (Nat.ltb_spec (length pre + ci) (length pre + length p));
      try lia; reflexivity.
  - intros ci a ci' a' Hguard Hbody IH.
    rewrite decode_loop_eq, loop_body_shift, Hbody, length_app.
    destruct (Nat.ltb_spec (length pre + ci + 2) (length pre + length p));
      [exact IH|lia].
  - intros ci a r Hguard Hbody.
    rewrite decode_loop_eq, loop_body_shift, Hbody, length_app.
    destruct (Nat.ltb_spec (length pre + ci + 2) (length pre + length p));
      [|lia].
    apply loop_body_Return in Hbody. destruct Hbody; subst; reflexivity.
  - intros ci a Hguard Hbody.
    rewrite decode_loop_eq, loop_body_shift, Hbody, length_app.
    destruct (Nat.ltb_spec (length pre + ci + 2) (length pre + length p));
      [reflexivity|lia].
Qed.

(** A successful scan of [p1] is the beginning of the scan of
    [p1 ++ p2]. *)
Lemma decode_loop_app_success d p1 p2 :
  forall ci json m,
    decode_loop d p1 ci json = Some (Value (JObject m)) ->
    (ci <= length p1)%nat ->
    decode_loop d (p1 ++ p2) ci json = decode_loop d (p1 ++ p2) (length p1) m.
Proof.
  intros ci json.
  apply (decode_loop_cases d p1
           (fun ci json res => forall m,
              res = Some (Value (JObject m)) -> (ci <= length p1)%nat ->
              decode_loop d (p1 ++ p2) ci json
              = decode_loop d (p1 ++ p2) (length p1) m)).
  - clear ci json. intros ci json _ m H Hle.
    destruct (Nat.ltb_spec ci (length p1)); [discriminate|].
    inversion H; subst m. replace ci with (length p1) by lia. reflexivity.
  - clear ci json. intros ci json ci' json' Hguard Hbody IH m H _.
    rewrite (decode_loop_eq d (p1 ++ p2) ci json).
    rewrite loop_body_app_l by (lia || congruence || (left; congruence)).
    rewrite Hbody, length_app.
    destruct (Nat.ltb_spec (ci + 2) (length p1 + length p2)); [|lia].
    apply IH; [exact H|]. apply loop_body_advance in Hbody. lia.
  - clear ci json. intros ci json r _ Hbody m H _.
    apply loop_body_Return in Hbody. destruct Hbody; subst; discriminate.
  - discriminate.
Qed.

(** X14. Decoding a concatenation.  If [p1] decodes to the object [m1]
    and [p2] is not empty, decoding [p1 ++ p2] gives what decoding [p2]
    gives: the same error or exception, or on success the object of [p2]
    completed by the entries of [m1] whose keys [p2] does not assign. *)
Theorem decode_app (d : Decoder) (p1 p2 : list byte) (m1 : gmap string Json) :
  decode d p1 = Some (Value (JObject m1)) ->
  p2 <> [] ->
  decode d (p1 ++ p2) = after_object m1 (decode d p2).
Proof.
  intros H1 Hp2.
  assert (Hp1 : p1 <> []) by (intros ->; discriminate).
  rewrite decode_nonempty in H1 by assumption.
  rewrite (decode_nonempty d p2) by assumption.
  rewrite decode_nonempty by (destruct p1; [congruence|discriminate]).
  rewrite (decode_loop_app_success d p1 p2 0 ∅ m1 H1) by lia.
  replace (length p1) with (length p1 + 0)%nat by lia.
  rewrite <- (left_id_L ∅ (∪) m1) at 1.
  apply decode_loop_shift.
Qed.

Lemma decode_app_witness :
  decode Decoder_ctor [x01; x67; x01; x90]
  = Some (Value (JObject {[ "Temperature_1"%string := JFloat 40%float ]})) /\
  [x02; x00; x01] <> [] /\
  decode Decoder_ctor ([x01; x67; x01; x90] ++ [x02; x00; x01])
  = after_object {[ "Temperature_1"%string := JFloat 40%float ]}
      (decode Decoder_ctor [x02; x00; x01]).
Proof.
  assert (H : decode Decoder_ctor [x01; x67; x01; x90]
              = Some (Value (JObject
                  {[ "Temperature_1"%string := JFloat 40%float ]})))
    by reflexivity.
  assert (Hne : [x02; x00; x01] <> []) by discriminate.
  split; [exact H|]. split; [exact Hne|].
  apply (decode_app Decoder_ctor _ _ _ H Hne).
Defined.

Lemma decode_loop_app_stable d p1 p2 :
  forall ci json,
    decode_loop d p1 ci json = Some (Unexpected UnkwownDataType) \/
    (decode_loop d p1 ci json = None /\
     Z.of_nat (length (p1 ++ p2)) <= PTRDIFF_MAX) ->
    decode_loop d (p1 ++ p2) ci json = decode_loop d p1 ci json.
Proof.
  apply (decode_loop_cases d p1
           (fun ci json res =>
              res = Some (Unexpected UnkwownDataType) \/
              (res = None /\ Z.of_nat (length (p1 ++ p2)) <= PTRDIFF_MAX) ->
              decode_loop d (p1 ++ p2) ci json = res)).
  - intros ci json _ H.
    destruct (ci <? length p1)%nat; destruct H as [H|[H _]]; discriminate.
  - intros ci json ci' json' Hguard Hbody IH H.
    rewrite (decode_loop_eq d (p1 ++ p2) ci json).
    rewrite loop_body_app_l by (lia || congruence || (left; congruence)).
    rewrite Hbody, length_app.
    destruct (Nat.ltb_spec (ci + 2) (length p1 + length p2)); [|lia].
    apply IH, H.
  - intros ci json r Hguard Hbody H.
    rewrite (decode_loop_eq d (p1 ++ p2) ci json).
    rewrite loop_body_app_l; [|lia| |left; congruence].
    + rewrite Hbody, length_app.
      destruct (Nat.ltb_spec (ci + 2) (length p1 + length p2)); [|lia].
      reflexivity.
    + rewrite Hbody. destruct H as [H|[H _]]; congruence.
  - intros ci json Hguard Hbody H.
    destruct H as [H|[_ Hbound]]; [discriminate|].
    rewrite (decode_loop_eq d (p1 ++ p2) ci json).
    rewrite loop_body_app_l by (lia || congruence || (right; exact Hbound)).
    rewrite Hbody, length_app.
    destruct (Nat.ltb_spec (ci + 2) (length p1 + length p2)); [|lia].
    reflexivity.
Qed.

(** X15. Appending bytes does not repair an unknown type: when [decode]
    answers [UnkwownDataType] for a buffer, it answers it for every
    extension of the buffer; likewise an exception stays, the extended
    buffer having at most [PTRDIFF_MAX] bytes as every buffer has. *)
Theorem decode_unknown_type_stable (d : Decoder) (p1 p2 : list byte) :
  (decode d p1 = Some (Unexpected UnkwownDataType) ->
   decode d (p1 ++ p2) = Some (Unexpected UnkwownDataType)) /\
  (decode d p1 = None ->
   Z.of_nat (length (p1 ++ p2)) <= PTRDIFF_MAX ->
   decode d (p1 ++ p2) = None).
Proof.
  assert (Hgen : decode d p1 = Some (Unexpected UnkwownDataType) \/
                 (decode d p1 = None /\
                  Z.of_nat (length (p1 ++ p2)) <= PTRDIFF_MAX) ->
                 decode d (p1 ++ p2) = decode d p1).
  { intros H.
    assert (Hp1 : p1 <> []) by (intros ->; destruct H as [H|[H _]]; discriminate).
    rewrite (decode_nonempty d p1) in * by assumption.
    rewrite decode_nonempty by (destruct p1; [congruence|discriminate]).
    apply decode_loop_app_stable, H. }
  split.
  - intros H. rewrite Hgen; auto.
  - intros H Hbound. rewrite Hgen; auto.
Qed.

Lemma decode_unknown_type_stable_witness :
  decode Decoder_ctor [x01; xff; x00] = Some (Unexpected UnkwownDataType) /\
  decode Decoder_ctor ([x01; xff; x00] ++ [x01; x67; x01; x90])
  = Some (Unexpected UnkwownDataType).
Proof.
  assert (H : decode Decoder_ctor [x01; xff; x00]
              = Some (Unexpected UnkwownDataType)) by reflexivity.
  split; [exact H|].
  apply (proj1 (decode_unknown_type_stable Decoder_ctor
                  [x01; xff; x00] [x01; x67; x01; x90]) H).
Defined.

(** ** Dispatch of one record *)

Lemma decode_record_dispatch d channel id data_type data_span :
  data_types_ d !! id = Some data_type ->
  data_span <> [] ->
  (size data_type <= length data_span)%nat ->
  decode_loop d (channel :: id :: data_span) 0 ∅
  = match decode_value data_type id (take (size data_type) data_span) with
    | Some (Some v) =>
      decode_loop d (channel :: id :: data_span) (2 + size data_type)
                  (<[json_key data_type channel := v]> ∅)
    | Some None => None
    | None => Some (Unexpected UnkwownDataType)
    end.
Proof.
  intros Hdt Hne Hle. rewrite decode_loop_eq.
  destruct (Nat.ltb_spec (0 + 2) (length (channel :: id :: data_span)))
    as [_|Hge].
  2:{ destruct data_span; [congruence|simpl in Hge; lia]. }
  rewrite (loop_body_header d _ 0 ∅ channel id) by reflexivity.
  rewrite Hdt.
  destruct (Nat.ltb_spec (length (channel :: id :: data_span))
                         (0 + 2 + size data_type)) as [Hlt|_].
  { simpl in Hlt. lia. }
  change (drop (0 + 2) (channel :: id :: data_span)) with data_span.
  destruct (decode_value data_type id _) as [[v|]|]; reflexivity.
Qed.

(** X16. Registered (non-standard) types bypass the [switch]: for a
    record of such a type with exactly [size] value bytes, [decode] hands
    these bytes to the registered [decoder_function] and stores its
    result under ["<name>_<channel>"]; if the function throws, so does
    [decode]. *)
Theorem decode_custom_record (d : Decoder) (channel id : byte)
    (data_type : DataType) (data_span : list byte) :
  data_types_ d !! id = Some data_type ->
  standard data_type = false ->
  length data_span = size data_type ->
  (0 < size data_type)%nat ->
  decode d (channel :: id :: data_span)
  = match decoder_function data_type data_span with
    | Some v =>
      Some (Value (JObject {[ name data_type +:+ "_" +:+ to_string channel
                              := v ]}))
    | None => None
    end.
Proof.
  intros Hdt Hstd Hlen Hpos.
  rewrite decode_nonempty by discriminate.
  rewrite (decode_record_dispatch d channel id data_type data_span);
    [|exact Hdt|destruct data_span; [simpl in Hlen; lia|discriminate]|lia].
  rewrite take_ge by lia.
  unfold decode_value. rewrite Hstd. simpl.
  destruct (decoder_function data_type data_span) as [v|]; [|reflexivity].
  rewrite loop_stops by (simpl; lia).
  destruct (Nat.ltb_spec (S (S (size data_type)))
                         (length (channel :: id :: data_span))) as [Hlt|_].
  { simpl in Hlt. lia. }
  rewrite insert_empty. reflexivity.
Qed.

Lemma decode_custom_record_witness :
  let counter :=
    mkDataType x10 "Counter" 1 false
               (fun s => Some (JUnsigned (Z.of_nat (length s)))) in
  let d := add_data_type (fun _ _ _ => counter) Decoder_ctor x10 "Counter" 1 in
  data_types_ d !! x10 = Some counter /\
  decode d [x05; x10; xff]
  = Some (Value (JObject {[ "Counter_5"%string := JUnsigned 1 ]})).
Proof.
  intros counter d.
  assert (Hdt : data_types_ d !! x10 = Some counter) by reflexivity.
  split; [exact Hdt|].
  apply (decode_custom_record d x05 x10 counter [xff] Hdt);
    [reflexivity|reflexivity|simpl; lia].
Defined.

Lemma switch_type_id_default id data_span :
  ~ In id [x00; x01; x02; x03; x65; x66; x67; x68; x71; x73; x86; x88] ->
  switch_type_id id data_span = None.
Proof.
  intros H. destruct id; try reflexivity; exfalso; apply H; simpl; tauto.
Qed.

(** X12. The [default] branch.  A record whose type is registered as
    standard under an identifier that is none of the twelve [case] labels
    is answered with [UnkwownDataType], provided the buffer holds the
    bytes of its width (and at least one value byte). *)
Theorem decode_standard_without_case (d : Decoder) (channel id : byte)
    (data_type : DataType) (data_span : list byte) :
  data_types_ d !! id = Some data_type ->
  standard data_type = true ->
  ~ In id [x00; x01; x02; x03; x65; x66; x67; x68; x71; x73; x86; x88] ->
  data_span <> [] ->
  (size data_type <= length data_span)%nat ->
  decode d (channel :: id :: data_span) = Some (Unexpected UnkwownDataType).
Proof.
  intros Hdt Hstd Hid Hne Hle.
  rewrite decode_nonempty by discriminate.
  rewrite (decode_record_dispatch d channel id data_type data_span)
    by assumption.
  unfold decode_value. rewrite Hstd. simpl.
  rewrite switch_type_id_default by assumption. reflexivity.
Qed.

Lemma decode_standard_without_case_witness :
  let odd := mkDataType x10 "Odd" 1 true (fun _ => None) in
  let d := mkDecoder {[ x10 := odd ]} in
  data_types_ d !! x10 = Some odd /\
  decode d [x01; x10; x00] = Some (Unexpected UnkwownDataType).
Proof.
  intros odd d.
  assert (Hdt : data_types_ d !! x10 = Some odd) by reflexivity.
  split; [exact Hdt|].
  apply (decode_standard_without_case d x01 x10 odd [x00] Hdt);
    [reflexivity| |discriminate|simpl; lia].
  simpl. intros H. repeat (destruct H as [H|H]; [discriminate H|]). exact H.
Defined.

(** ** Channels *)

Lemma to_string_inj (c1 c2 : byte) : to_string c1 = to_string c2 -> c1 = c2.
Proof.
  unfold to_string. intros H. apply byte_to_N_inj.
  apply (inj (pretty : N -> string)), H.
Qed.

Lemma json_key_channel_inj dt1 dt2 c1 c2 :
  name dt1 = name dt2 -> json_key dt1 c1 = json_key dt2 c2 -> c1 = c2.
Proof.
  unfold json_key. intros -> H.
  apply to_string_inj.
  apply (inj (String.app "_")), (inj (String.app (name dt2))), H.
Qed.

(** X17. Channels keep readings apart.  Two records whose types have the
    same name but whose channel bytes differ are stored under different
    keys, so a buffer made of the two decodes to an object holding both
    values. *)
Theorem distinct_channels_both_kept (d : Decoder) (r1 r2 : TLV)
    (dt1 dt2 : DataType) (v1 v2 : Json) :
  Forall (decodable_record d) [r1; r2] ->
  data_types_ d !! tlv_type r1 = Some dt1 ->
  data_types_ d !! tlv_type r2 = Some dt2 ->
  name dt1 = name dt2 ->
  tlv_channel r1 <> tlv_channel r2 ->
  decode_value dt1 (tlv_type r1) (tlv_value r1) = Some (Some v1) ->
  decode_value dt2 (tlv_type r2) (tlv_value r2) = Some (Some v2) ->
  exists m,
    decode d (tlv_bytes r1 ++ tlv_bytes r2) = Some (Value (JObject m)) /\
    json_key dt1 (tlv_channel r1) <> json_key dt2 (tlv_channel r2) /\
    m !! json_key dt1 (tlv_channel r1) = Some v1 /\
    m !! json_key dt2 (tlv_channel r2) = Some v2 /\
    base.size m = 2%nat.
Proof.
  intros Hrecs Hdt1 Hdt2 Hname Hch Hv1 Hv2.
  assert (Hkeys : json_key dt1 (tlv_channel r1) <> json_key dt2 (tlv_channel r2)).
  { intros H. apply Hch. eapply json_key_channel_inj; eassumption. }
  exists (<[json_key dt2 (tlv_channel r2) := v2]>
            {[ json_key dt1 (tlv_channel r1) := v1 ]}).
  split; [|split; [exact Hkeys|split; [|split]]].
  - replace (tlv_bytes r1 ++ tlv_bytes r2)
      with (concat (map tlv_bytes [r1; r2]))
      by (simpl; rewrite app_nil_r; reflexivity).
    rewrite decode_records by (discriminate || assumption).
    simpl. unfold store, tlv_entry. rewrite Hdt1, Hdt2. simpl.
    rewrite Hv1, Hv2. rewrite insert_empty. reflexivity.
  - rewrite lookup_insert_ne by congruence. apply lookup_singleton_eq.
  - apply lookup_insert_eq.
  - rewrite map_size_insert_None, map_size_singleton; [reflexivity|].
    apply lookup_singleton_ne. exact Hkeys.
Qed.

Lemma distinct_channels_both_kept_witness :
  let r1 := mkTLV x01 x67 [x01; x90] in
  let r2 := mkTLV x02 x67 [xff; x9c] in
  let dt := standard_data_type x67 "Temperature" 2 in
  Forall (decodable_record Decoder_ctor) [r1; r2] /\
  x01 <> x02 /\
  exists m,
    decode Decoder_ctor [x01; x67; x01; x90; x02; x67; xff; x9c]
    = Some (Value (JObject m)) /\
    json_key dt x01 <> json_key dt x02 /\
    m !! "Temperature_1"%string = Some (JFloat 40%float) /\
    m !! "Temperature_2"%string = Some (JFloat (-10)%float) /\
    base.size m = 2%nat.
Proof.
  intros r1 r2 dt.
  assert (Hrecs : Forall (decodable_record Decoder_ctor) [r1; r2]).
  { repeat constructor; apply temperature_record_decodable; reflexivity. }
  assert (Hne : x01 <> x02) by discriminate.
  split; [exact Hrecs|]. split; [exact Hne|].
  apply (distinct_channels_both_kept Decoder_ctor r1 r2 dt dt
           (JFloat 40%float) (JFloat (-10)%float) Hrecs);
    (reflexivity || exact Hne).
Defined.

(** X18. Trailing bytes spoil a success.  If a buffer decodes
    successfully, the buffer followed by one or two more bytes, whatever
    they are, is answered with [BadPayloadFormat]. *)
Theorem decode_trailing_bytes (d : Decoder) (p1 p2 : list byte) (j : Json) :
  decode d p1 = Some (Value j) ->
  (length p2 = 1 \/ length p2 = 2)%nat ->
  decode d (p1 ++ p2) = Some (Unexpected BadPayloadFormat).
Proof.
  intros H1 Hlen.
  assert (Hp1 : p1 <> []) by (intros ->; discriminate).
  rewrite decode_nonempty in H1 by assumption.
  destruct (decode_loop_shape _ _ _ _ _ H1) as [[m1 Hj]|[Hj|Hj]];
    try discriminate Hj.
  injection Hj as ->.
  rewrite decode_nonempty by (destruct p1; [congruence|discriminate]).
  rewrite (decode_loop_app_success d p1 p2 0 ∅ m1 H1) by lia.
  replace (length p1) with (length p1 + 0)%nat by lia.
  rewrite <- (left_id_L ∅ (∪) m1) at 1.
  rewrite decode_loop_shift, loop_stops by lia.
  destruct (Nat.ltb_spec 0 (length p2)); [reflexivity|lia].
Qed.

Lemma decode_trailing_bytes_witness :
  decode Decoder_ctor [x01; x67; x01; x90]
  = Some (Value (JObject {[ "Temperature_1"%string := JFloat 40%float ]})) /\
  (length [x02; x67] = 1 \/ length [x02; x67] = 2)%nat /\
  decode Decoder_ctor ([x01; x67; x01; x90] ++ [x02; x67])
  = Some (Unexpected BadPayloadFormat).
Proof.
  assert (H : decode Decoder_ctor [x01; x67; x01; x90]
              = Some (Value (JObject
                  {[ "Temperature_1"%string := JFloat 40%float ]})))
    by reflexivity.
  assert (Hlen : (length [x02; x67] = 1 \/ length [x02; x67] = 2)%nat)
    by (right; reflexivity).
  split; [exact H|]. split; [exact Hlen|].
  apply (decode_trailing_bytes Decoder_ctor _ _ _ H Hlen).
Defined.

Lemma bytes_to_int16_range_injective_witness :
  bytes_to_int16 [xff; x9c] = bytes_to_int16 [xff; x9c] /\
  (exists v,
      bytes_to_int16 [xff; x9c] = Some v /\
      - 32768 <= v <= 32767 /\
      v mod 65536 = u8 xff * 256 + u8 x9c) /\
  xff = xff /\ x9c = x9c.
Proof.
  assert (H : bytes_to_int16 [xff; x9c] = bytes_to_int16 [xff; x9c])
    by reflexivity.
  destruct (bytes_to_int16_range_injective xff x9c xff x9c) as [Hv Hinj].
  split; [exact H|]. split; [exact Hv|]. exact (Hinj H).
Defined.

Lemma bytes_to_int24_range_injective_witness :
  bytes_to_int24 [xff; xff; x9c] = bytes_to_int24 [xff; xff; x9c] /\
  (exists v,
      bytes_to_int24 [xff; xff; x9c] = Some v /\
      - 8388608 <= v <= 8388607 /\
      v mod 16777216 = u8 xff * 65536 + u8 xff * 256 + u8 x9c) /\
  xff = xff /\ xff = xff /\ x9c = x9c.
Proof.
  assert (H : bytes_to_int24 [xff; xff; x9c] = bytes_to_int24 [xff; xff; x9c])
    by reflexivity.
  destruct (bytes_to_int24_range_injective xff xff x9c xff xff x9c)
    as [Hv Hinj].
  split; [exact H|]. split; [exact Hv|]. exact (Hinj H).
Defined.
